(** * PixelCNN: masked convolutions, forward pass, likelihood and sampling

    A shallow embedding of [autoregressive/pixelCNN.py].  Tensors are a
    shape together with an indexing function; floating-point numbers are
    idealised as real numbers; the parameters of a layer (weights, bias,
    mask) are nested lists, so that the state of a model before and after
    a call can be compared with plain equality.  Every method that
    mutates [self] returns the updated object next to its value, and
    every operation on which the tensor library can raise returns a
    [result]. *)

From Stdlib Require Import String.
From Stdlib Require Import Reals List ZArith Lia Lra Bool Arith Sorted.
Import ListNotations.

Set Implicit Arguments.

(** ** Errors *)

Inductive error : Type :=
| ShapeError          (* RuntimeError: sizes of tensors do not match *)
| UnpackError         (* ValueError: not enough values to unpack *)
| IndexError          (* IndexError: index out of range *)
| TargetOutOfBounds.  (* cross_entropy: target class outside [0, classes) *)

Inductive result (A : Type) : Type :=
| Ok (a : A)
| Err (e : error).

Arguments Ok {A} a.
Arguments Err {A} e.

Definition bind {A B : Type} (r : result A) (f : A -> result B) : result B :=
  match r with
  | Ok a => f a
  | Err e => Err e
  end.

Notation "x <- c1 ;; c2" := (bind c1 (fun x => c2))
  (at level 61, c1 at next level, right associativity).
Notation "' pat <- c1 ;; c2" := (bind c1 (fun x => match x with pat => c2 end))
  (at level 61, pat pattern, c1 at next level, right associativity).

Fixpoint mapM {A B : Type} (f : A -> result B) (l : list A) : result (list B) :=
  match l with
  | [] => Ok []
  | a :: l' => b <- f a ;; bs <- mapM f l' ;; Ok (b :: bs)
  end.

(** A [for] loop over a list whose body can raise. *)
Fixpoint foldM {A S : Type} (f : S -> A -> result S) (l : list A) (s : S) : result S :=
  match l with
  | [] => Ok s
  | a :: l' => s' <- f s a ;; foldM f l' s'
  end.

(** ** Tensors *)

(** A tensor of shape (B, C, H, W). *)
Record tensor4 (A : Type) : Type := mkT4 {
  tB : nat; tC : nat; tH : nat; tW : nat;
  dat : nat -> nat -> nat -> nat -> A
}.

(** A tensor of shape (B, K, C, H, W). *)
Record tensor5 (A : Type) : Type := mkT5 {
  uB : nat; uK : nat; uC : nat; uH : nat; uW : nat;
  dat5 : nat -> nat -> nat -> nat -> nat -> A
}.

Definition same_shape {A B : Type} (s : tensor4 A) (t : tensor4 B) : bool :=
  (tB s =? tB t) && (tC s =? tC t) && (tH s =? tH t) && (tW s =? tW t).

Definition tmap {A B : Type} (f : A -> B) (t : tensor4 A) : tensor4 B :=
  mkT4 (tB t) (tC t) (tH t) (tW t) (fun b c y x => f (dat t b c y x)).

(** Element-wise binary operation; the operands have equal shapes in
    every use below, and unequal ones are refused (the library would
    broadcast over dimensions of size 1, which is not modelled). *)
Definition tzip_out (f : R -> R -> R) (s t : tensor4 R) : tensor4 R :=
  mkT4 (tB s) (tC s) (tH s) (tW s) (fun b c y x => f (dat s b c y x) (dat t b c y x)).

Definition tzip (f : R -> R -> R) (s t : tensor4 R) : result (tensor4 R) :=
  if same_shape s t then Ok (tzip_out f s t) else Err ShapeError.

(** [t.chunk(2, dim=1)] unpacked into two names: chunks of
    ceil(C / 2) channels; fewer than two chunks cannot be unpacked. *)
Definition chunk_lo (t : tensor4 R) : tensor4 R :=
  mkT4 (tB t) ((tC t + 1) / 2) (tH t) (tW t) (dat t).

Definition chunk_hi (t : tensor4 R) : tensor4 R :=
  let size := (tC t + 1) / 2 in
  mkT4 (tB t) (tC t - size) (tH t) (tW t) (fun b c y x => dat t b (size + c) y x).

Definition chunk2 (t : tensor4 R) : result (tensor4 R * tensor4 R) :=
  if tC t <? 2 then Err UnpackError else Ok (chunk_lo t, chunk_hi t).

(** [t[:, :, :r, :]] *)
Definition crop_rows {A : Type} (r : nat) (t : tensor4 A) : tensor4 A :=
  mkT4 (tB t) (tC t) (Nat.min r (tH t)) (tW t) (dat t).

(** Reading a feature map through its zero padding. *)
Definition getpad (t : tensor4 R) (b c : nat) (y x : Z) : R :=
  if ((0 <=? y) && (y <? Z.of_nat (tH t)) && (0 <=? x) && (x <? Z.of_nat (tW t)))%Z
  then dat t b c (Z.to_nat y) (Z.to_nat x)
  else 0%R.

Fixpoint sum_n (n : nat) (f : nat -> R) : R :=
  match n with
  | O => 0%R
  | S k => (sum_n k f + f k)%R
  end.

(** ** Parameters *)

Definition kernel : Type := list (list R).
Definition weight4 : Type := list (list kernel).

Definition get2 (k : kernel) (ky kx : nat) : R := nth kx (nth ky k []) 0%R.
Definition get4 (w : weight4) (o i ky kx : nat) : R :=
  get2 (nth i (nth o w []) []) ky kx.

Fixpoint zipWith {A B C : Type} (f : A -> B -> C) (l : list A) (l' : list B) : list C :=
  match l, l' with
  | a :: t, b :: t' => f a b :: zipWith f t t'
  | _, _ => []
  end.

(** ** nn.Conv2d (stride 1, zero padding) *)

Record Conv2d : Type := mkConv2d {
  in_channels : nat;
  out_channels : nat;
  kernel_size : nat * nat;
  dilation : nat;
  padding : nat * nat;
  weight : weight4;
  bias : list R
}.

Definition set_weight (cv : Conv2d) (w : weight4) : Conv2d :=
  mkConv2d (in_channels cv) (out_channels cv) (kernel_size cv) (dilation cv)
           (padding cv) w (bias cv).

Definition conv2d_out (cv : Conv2d) (x : tensor4 R) : tensor4 R :=
  let kH := fst (kernel_size cv) in
  let kW := snd (kernel_size cv) in
  let pH := fst (padding cv) in
  let pW := snd (padding cv) in
  let d := dilation cv in
  mkT4 (tB x) (out_channels cv)
       (tH x + 2 * pH - d * (kH - 1)) (tW x + 2 * pW - d * (kW - 1))
       (fun b o y xx =>
          (nth o (bias cv) 0 +
           sum_n (in_channels cv) (fun i =>
           sum_n kH (fun ky =>
           sum_n kW (fun kx =>
             get4 (weight cv) o i ky kx *
             getpad x b i (Z.of_nat y + Z.of_nat (ky * d) - Z.of_nat pH)
                          (Z.of_nat xx + Z.of_nat (kx * d) - Z.of_nat pW)))))%R).

(** The library refuses an input whose channel count is not the
    layer's, and a kernel larger than the padded input.  This is the
    convolution of a layer with at least one input channel and a
    dilation of at least 1, the only ones that the constructors of this
    file build for positive channel counts; what the library does with a
    layer without input channels or with dilation 0 is not modelled. *)
Definition conv2d (cv : Conv2d) (x : tensor4 R) : result (tensor4 R) :=
  if (tC x =? in_channels cv)
     && (dilation cv * (fst (kernel_size cv) - 1) + 1 <=? tH x + 2 * fst (padding cv))
     && (dilation cv * (snd (kernel_size cv) - 1) + 1 <=? tW x + 2 * snd (padding cv))
  then Ok (conv2d_out cv x)
  else Err ShapeError.

(** ** MaskedConvolution *)

Record MaskedConvolution : Type := mkMasked {
  conv : Conv2d;
  mask : kernel
}.

(** Initial values of a convolution's weight and bias. *)
Definition params : Type := (weight4 * list R)%type.

(** [MaskedConvolution.__init__]: the kernel size is read off the mask.
    The padding is that of a mask with at least one row and one column;
    for an empty mask Python computes a negative padding, where the
    truncated subtraction gives 0. *)
Definition MaskedConvolution_init (c_in c_out : nat) (mask : kernel)
    (dilation : nat) (p : params) : MaskedConvolution :=
  let kernel_size := (length mask, length (hd [] mask)) in
  let padding := (dilation * (fst kernel_size - 1) / 2,
                  dilation * (snd kernel_size - 1) / 2) in
  mkMasked (mkConv2d c_in c_out kernel_size dilation padding (fst p) (snd p)) mask.

(** Broadcasting one dimension of the right operand of an in-place
    operation: sizes are equal, or the operand has size 1. *)
Definition expand {A : Type} (n : nat) (l : list A) : result (list A) :=
  if length l =? n then Ok l
  else match l with
       | [a] => Ok (repeat a n)
       | _ => Err ShapeError
       end.

Definition expand_mask (ks : nat * nat) (m : kernel) : result kernel :=
  rows <- expand (fst ks) m ;; mapM (expand (snd ks)) rows.

Definition mul_kernel (k m : kernel) : kernel := zipWith (zipWith Rmult) k m.

Definition mul_weight (w : weight4) (m : kernel) : weight4 :=
  map (map (fun k => mul_kernel k m)) w.

(** [self.conv.weight.data *= self.mask], the mask buffer having shape
    (1, 1, kH, kW). *)
Definition imul_mask (cv : Conv2d) (m : kernel) : result Conv2d :=
  m' <- expand_mask (kernel_size cv) m ;;
  Ok (set_weight cv (mul_weight (weight cv) m')).

(** [MaskedConvolution.forward] *)
Definition MaskedConvolution_forward (mc : MaskedConvolution) (x : tensor4 R)
    : result (tensor4 R * MaskedConvolution) :=
  cv <- imul_mask (conv mc) (mask mc) ;;
  y <- conv2d cv x ;;
  Ok (y, mkMasked cv (mask mc)).

(** ** Masks *)

Definition ones (h w : nat) : kernel := repeat (repeat 1%R w) h.

Definition zero_row (row : list R) : list R := map (fun _ => 0%R) row.

(** [mask[r:, :] = 0] *)
Definition zero_rows_from (r : nat) (m : kernel) : kernel :=
  firstn r m ++ map zero_row (skipn r m).

(** [mask[r, :] = 0]; an index past the last row raises. *)
Definition zero_row_at (r : nat) (m : kernel) : result kernel :=
  if r <? length m
  then Ok (firstn r m ++ map zero_row (firstn 1 (skipn r m)) ++ skipn (S r) m)
  else Err IndexError.

(** [mask[0, c:] = 0] *)
Definition zero_cols_from (c : nat) (m : kernel) : kernel :=
  match m with
  | [] => []
  | row :: rest => (firstn c row ++ zero_row (skipn c row)) :: rest
  end.

(** [mask[0, c] = 0] *)
Definition zero_at (c : nat) (m : kernel) : result kernel :=
  match m with
  | [] => Err IndexError
  | row :: rest =>
      if c <? length row
      then Ok ((firstn c row ++ zero_row (firstn 1 (skipn c row)) ++ skipn (S c) row) :: rest)
      else Err IndexError
  end.

Definition vertical_mask (kernel_size : nat) (mask_center : bool) : result kernel :=
  let mask := ones kernel_size kernel_size in
  let mask := zero_rows_from (kernel_size / 2 + 1) mask in
  if mask_center then zero_row_at (kernel_size / 2) mask else Ok mask.

Definition horizontal_mask (kernel_size : nat) (mask_center : bool) : result kernel :=
  let mask := ones 1 kernel_size in
  let mask := zero_cols_from (kernel_size / 2 + 1) mask in
  if mask_center then zero_at (kernel_size / 2) mask else Ok mask.

Definition VerticalStackConvolution_init (c_in c_out kernel_size : nat)
    (mask_center : bool) (dilation : nat) (p : params) : result MaskedConvolution :=
  mask <- vertical_mask kernel_size mask_center ;;
  Ok (MaskedConvolution_init c_in c_out mask dilation p).

Definition HorizontalStackConvolution_init (c_in c_out kernel_size : nat)
    (mask_center : bool) (dilation : nat) (p : params) : result MaskedConvolution :=
  mask <- horizontal_mask kernel_size mask_center ;;
  Ok (MaskedConvolution_init c_in c_out mask dilation p).

(** ** GatedMaskedConv *)

Definition sigmoid (x : R) : R := (1 / (1 + exp (- x)))%R.

Definition elu (x : R) : R := if Rlt_dec 0 x then x else (exp x - 1)%R.

Record GatedMaskedConv : Type := mkGated {
  conv_vert : MaskedConvolution;
  conv_horiz : MaskedConvolution;
  conv_vert_to_horiz : Conv2d;
  conv_horiz_1x1 : Conv2d
}.

Record gated_params : Type := mkGatedParams {
  p_vert : params;
  p_horiz : params;
  p_vert_to_horiz : params;
  p_horiz_1x1 : params
}.

(** [nn.Conv2d(c_in, c_out, kernel_size=1, padding=0)] *)
Definition Conv2d_1x1 (c_in c_out : nat) (p : params) : Conv2d :=
  mkConv2d c_in c_out (1, 1) 1 (0, 0) (fst p) (snd p).

Definition GatedMaskedConv_init (c_in dilation : nat) (p : gated_params)
    : result GatedMaskedConv :=
  cv <- VerticalStackConvolution_init c_in (2 * c_in) 3 false dilation (p_vert p) ;;
  ch <- HorizontalStackConvolution_init c_in (2 * c_in) 3 false dilation (p_horiz p) ;;
  Ok (mkGated cv ch
        (Conv2d_1x1 (2 * c_in) (2 * c_in) (p_vert_to_horiz p))
        (Conv2d_1x1 c_in c_in (p_horiz_1x1 p))).

Definition GatedMaskedConv_forward (g : GatedMaskedConv) (v_stack h_stack : tensor4 R)
    : result (tensor4 R * tensor4 R * GatedMaskedConv) :=
  (* Vertical stack (left) *)
  '(v_stack_feat, cv) <- MaskedConvolution_forward (conv_vert g) v_stack ;;
  '(v_val, v_gate) <- chunk2 v_stack_feat ;;
  v_stack_out <- tzip Rmult (tmap tanh v_val) (tmap sigmoid v_gate) ;;
  (* Horizontal stack (right) *)
  '(h_stack_feat, ch) <- MaskedConvolution_forward (conv_horiz g) h_stack ;;
  v2h <- conv2d (conv_vert_to_horiz g) v_stack_feat ;;
  h_stack_feat <- tzip Rplus h_stack_feat v2h ;;
  '(h_val, h_gate) <- chunk2 h_stack_feat ;;
  h_stack_feat <- tzip Rmult (tmap tanh h_val) (tmap sigmoid h_gate) ;;
  h_stack_out <- conv2d (conv_horiz_1x1 g) h_stack_feat ;;
  h_stack_out <- tzip Rplus h_stack_out h_stack ;;
  Ok (v_stack_out, h_stack_out,
      mkGated cv ch (conv_vert_to_horiz g) (conv_horiz_1x1 g)).

(** ** PixelCNN *)

Record PixelCNN : Type := mkPixelCNN {
  hp_c_in : nat;
  hp_c_hidden : nat;
  conv_vstack : MaskedConvolution;
  conv_hstack : MaskedConvolution;
  conv_layers : list GatedMaskedConv;
  conv_out : Conv2d
}.

Record model_params : Type := mkModelParams {
  p_vstack : params;
  p_hstack : params;
  p_layers : nat -> gated_params;
  p_out : params
}.

Definition dilations : list nat := [1; 2; 1; 4; 1; 2; 1].

Definition PixelCNN_init (c_in c_hidden : nat) (p : model_params) : result PixelCNN :=
  cv <- VerticalStackConvolution_init c_in c_hidden 3 true 1 (p_vstack p) ;;
  ch <- HorizontalStackConvolution_init c_in c_hidden 3 true 1 (p_hstack p) ;;
  layers <- mapM (fun jd => GatedMaskedConv_init c_hidden (snd jd) (p_layers p (fst jd)))
                 (combine (seq 0 (length dilations)) dilations) ;;
  Ok (mkPixelCNN c_in c_hidden cv ch layers
        (Conv2d_1x1 c_hidden (c_in * 256) (p_out p))).

(** [for layer in self.conv_layers: v_stack, h_stack = layer(v_stack, h_stack)] *)
Fixpoint run_layers (layers : list GatedMaskedConv) (v_stack h_stack : tensor4 R)
    : result (tensor4 R * tensor4 R * list GatedMaskedConv) :=
  match layers with
  | [] => Ok (v_stack, h_stack, [])
  | layer :: rest =>
      '(v, h, layer') <- GatedMaskedConv_forward layer v_stack h_stack ;;
      '(v', h', rest') <- run_layers rest v h ;;
      Ok (v', h', layer' :: rest')
  end.

(** [out.reshape(out.shape[0], 256, out.shape[1]//256, out.shape[2], out.shape[3])] *)
Definition reshape_out (out : tensor4 R) : tensor5 R :=
  let c := tC out / 256 in
  mkT5 (tB out) 256 c (tH out) (tW out) (fun b k ch y x => dat out b (k * c + ch) y x).

Definition reshape_classes (out : tensor4 R) : result (tensor5 R) :=
  if 256 * (tC out / 256) =? tC out then Ok (reshape_out out) else Err ShapeError.

(** Scale input from 0 to 255 back to -1 to 1 *)
Definition rescale (v : Z) : R := (IZR v / 255 * 2 - 1)%R.

Definition PixelCNN_forward (m : PixelCNN) (x : tensor4 Z)
    : result (tensor5 R * PixelCNN) :=
  let x := tmap rescale x in
  '(v_stack, cv) <- MaskedConvolution_forward (conv_vstack m) x ;;
  '(h_stack, ch) <- MaskedConvolution_forward (conv_hstack m) x ;;
  '(v_stack, h_stack, layers) <- run_layers (conv_layers m) v_stack h_stack ;;
  out <- conv2d (conv_out m) (tmap elu h_stack) ;;
  out <- reshape_classes out ;;
  Ok (out, mkPixelCNN (hp_c_in m) (hp_c_hidden m) cv ch layers (conv_out m)).

(** ** Likelihood *)

Definition in_bounds4 (K : nat) (t : tensor4 Z) : bool :=
  forallb (fun b => forallb (fun c => forallb (fun y => forallb (fun x =>
    (0 <=? dat t b c y x)%Z && (dat t b c y x <? Z.of_nat K)%Z)
    (seq 0 (tW t))) (seq 0 (tH t))) (seq 0 (tC t))) (seq 0 (tB t)).

Definition logsumexp (K : nat) (l : nat -> R) : R := ln (sum_n K (fun k => exp (l k))).

(** [F.cross_entropy(pred, target, reduction='none')] with the class
    dimension second: the negated log-softmax at the target class.  The
    library's [ignore_index], by which a target of -100 yields loss 0,
    is not modelled: -100 is out of bounds like every other target
    outside the classes. *)
Definition cross_entropy (pred : tensor5 R) (target : tensor4 Z) : result (tensor4 R) :=
  if (uB pred =? tB target) && (uC pred =? tC target)
     && (uH pred =? tH target) && (uW pred =? tW target)
  then
    if in_bounds4 (uK pred) target
    then Ok (mkT4 (tB target) (tC target) (tH target) (tW target)
               (fun b c y x =>
                  (- (dat5 pred b (Z.to_nat (dat target b c y x)) c y x
                      - logsumexp (uK pred) (fun k => dat5 pred b k c y x)))%R))
    else Err TargetOutOfBounds
  else Err ShapeError.

(** [t.mean(dim=[1,2,3])] at batch element [b] *)
Definition mean123 (t : tensor4 R) (b : nat) : R :=
  (sum_n (tC t) (fun c => sum_n (tH t) (fun y => sum_n (tW t) (fun x => dat t b c y x)))
   / INR (tC t * tH t * tW t))%R.

Definition mean_n (n : nat) (f : nat -> R) : R := (sum_n n f / INR n)%R.

Definition log2 (x : R) : R := (ln x / ln 2)%R.

Definition calc_likelihood (m : PixelCNN) (x : tensor4 Z) : result (R * PixelCNN) :=
  '(pred, m') <- PixelCNN_forward m x ;;
  nll <- cross_entropy pred x ;;
  let bpd := fun b => (mean123 nll b * log2 (exp 1))%R in
  Ok (mean_n (tB nll) bpd, m').

(** The likelihood in the words of the specification: the batch mean of
    the per-image mean cross-entropy, times log2(e). *)
Definition likelihood_spec (pred : tensor5 R) (x : tensor4 Z) : R :=
  let ce := fun b c y xx =>
    (logsumexp 256 (fun k => dat5 pred b k c y xx)
     - dat5 pred b (Z.to_nat (dat x b c y xx)) c y xx)%R in
  let per_image := fun b =>
    (sum_n (tC x) (fun c => sum_n (tH x) (fun y => sum_n (tW x) (fun xx => ce b c y xx)))
     / INR (tC x * tH x * tW x))%R in
  (sum_n (tB x) per_image / INR (tB x) * log2 (exp 1))%R.

(** ** Sampling *)

Definition softmax (K : nat) (l : nat -> R) (k : nat) : R :=
  (exp (l k) / sum_n K (fun j => exp (l j)))%R.

Definition full (shape : nat * nat * nat * nat) (v : Z) : tensor4 Z :=
  let '(B, C, H, W) := shape in mkT4 B C H W (fun _ _ _ _ => v).

(** [img[:, c, h, w] = vals] *)
Definition assign_out (img : tensor4 Z) (c h w : nat) (vals : list Z) : tensor4 Z :=
  mkT4 (tB img) (tC img) (tH img) (tW img)
       (fun b c' y x =>
          if (c' =? c) && (y =? h) && (x =? w) then nth b vals 0%Z
          else dat img b c' y x).

Definition assign_cell (img : tensor4 Z) (c h w : nat) (vals : list Z) : result (tensor4 Z) :=
  if length vals =? tB img then Ok (assign_out img c h w vals) else Err ShapeError.

(** [if img is None: img = torch.zeros(img_shape, dtype=torch.long) - 1] *)
Definition seed_or_empty (img_shape : nat * nat * nat * nat) (img : option (tensor4 Z))
    : tensor4 Z :=
  match img with
  | None => full img_shape (-1)
  | Some img => img
  end.

(** [(img[:, c, h, w] != -1).all()] *)
Definition all_filled (img : tensor4 Z) (c h w : nat) : bool :=
  forallb (fun b => negb (dat img b c h w =? -1)%Z) (seq 0 (tB img)).

Section RandomSource.

(** The state of the random generator, and [torch.multinomial(probs,
    num_samples=1).squeeze(dim=-1)] on a matrix of [rows] probability
    vectors over [classes] classes. *)
Variable RNG : Type.
Variable multinomial : RNG -> nat -> nat -> (nat -> nat -> R) -> list Z * RNG.

Definition sample_state : Type := (PixelCNN * RNG * tensor4 Z)%type.

(** The body of the innermost loop at position (h, w, c). *)
Definition sample_step (st : sample_state) (h w c : nat) : result sample_state :=
  let '(m, g, img) := st in
  if (c <? tC img) && (h <? tH img) && (w <? tW img) then
    (* Skip if not to be filled (-1) *)
    if all_filled img c h w then Ok st
    else
      '(pred, m') <- PixelCNN_forward m (crop_rows (h + 1) img) ;;
      if (c <? uC pred) && (h <? uH pred) && (w <? uW pred) then
        let probs := fun b => softmax (uK pred) (fun k => dat5 pred b k c h w) in
        let '(vals, g') := multinomial g (uB pred) (uK pred) probs in
        img' <- assign_cell img c h w vals ;;
        Ok (m', g', img')
      else Err IndexError
  else Err IndexError.

Definition sample (m : PixelCNN) (img_shape : nat * nat * nat * nat) (g : RNG)
    (img : option (tensor4 Z)) : result sample_state :=
  (* Create empty image *)
  let img := seed_or_empty img_shape img in
  let '(_, C, H, W) := img_shape in
  (* Generation loop *)
  foldM (fun st h =>
    foldM (fun st w =>
      foldM (fun st c => sample_step st h w c) (seq 0 C) st)
      (seq 0 W) st)
    (seq 0 H) (m, g, img).

End RandomSource.

(** ** Predicates used in the statements *)

Definition is_zero (v : R) : bool := if Req_dec_T v 0 then true else false.

(** Number of zero entries of a mask. *)
Definition count_zeros (m : kernel) : nat :=
  fold_right (fun row n => length (filter is_zero row) + n) 0 m.

(** A mask whose entries are all 0 or 1. *)
Definition binary_mask (m : kernel) : Prop :=
  Forall (Forall (fun v => v = 0%R \/ v = 1%R)) m.

(** Dimensions of a mask, as [mask.shape[0]] and [mask.shape[1]]. *)
Definition mask_dims (m : kernel) : nat * nat := (length m, length (hd [] m)).

Definition rectangular (m : kernel) : Prop :=
  Forall (fun row => length row = snd (mask_dims m)) m.

(** The masks of extent 3, written out. *)
Definition vmask (mask_center : bool) : kernel :=
  if mask_center then [[1; 1; 1]; [0; 0; 0]; [0; 0; 0]]%R
  else [[1; 1; 1]; [1; 1; 1]; [0; 0; 0]]%R.

Definition hmask (mask_center : bool) : kernel :=
  if mask_center then [[1; 0; 0]]%R else [[1; 1; 0]]%R.

(** The layers as the constructors leave them, for kernel extent 3. *)
Definition vconv (c_in c_out : nat) (mask_center : bool) (d : nat) (p : params)
    : MaskedConvolution :=
  mkMasked (mkConv2d c_in c_out (3, 3) d (d, d) (fst p) (snd p)) (vmask mask_center).

Definition hconv (c_in c_out : nat) (mask_center : bool) (d : nat) (p : params)
    : MaskedConvolution :=
  mkMasked (mkConv2d c_in c_out (1, 3) d (0, d) (fst p) (snd p)) (hmask mask_center).

Definition gated (c d : nat) (p : gated_params) : GatedMaskedConv :=
  mkGated (vconv c (2 * c) false d (p_vert p)) (hconv c (2 * c) false d (p_horiz p))
          (Conv2d_1x1 (2 * c) (2 * c) (p_vert_to_horiz p))
          (Conv2d_1x1 c c (p_horiz_1x1 p)).

Definition is_gated (c : nat) (g : GatedMaskedConv) : Prop :=
  exists d p, g = gated c d p.

(** Positions of a feature map relative to a target position (h, w):
    rows down to row h; raster positions down to (h, w); raster
    positions strictly before (h, w). *)
Definition above (h W y x : nat) : Prop := y <= h /\ x < W.
Definition upto (h w W y x : nat) : Prop := (y < h \/ (y = h /\ x <= w)) /\ x < W.
Definition before (h w W y x : nat) : Prop := (y < h \/ (y = h /\ x < w)) /\ x < W.

(** Two feature maps of width W and more than h rows that coincide, for
    batch element b, on the positions in P. *)
Definition agree (b h W : nat) (P : nat -> nat -> Prop) (s t : tensor4 R) : Prop :=
  h < tH s /\ h < tH t /\ tW s = W /\ tW t = W /\ tC s = tC t /\
  forall c y x, c < tC s -> P y x -> dat s b c y x = dat t b c y x.

Definition shape4 {A : Type} (t : tensor4 A) : nat * nat * nat * nat :=
  (tB t, tC t, tH t, tW t).

Definition shape5 {A : Type} (t : tensor5 A) : nat * nat * nat * nat * nat :=
  (uB t, uK t, uC t, uH t, uW t).

(** A convolution whose padding keeps the spatial size. *)
Definition same_padding (cv : Conv2d) : Prop :=
  2 * fst (padding cv) = dilation cv * (fst (kernel_size cv) - 1) /\
  2 * snd (padding cv) = dilation cv * (snd (kernel_size cv) - 1).

Definition region_ok (h W : nat) (P : nat -> nat -> Prop) : Prop :=
  forall y x, P y x -> y <= h /\ x < W.

(** The layer with every stored weight replaced by its product with the
    mask. *)
Definition apply_mask (mc : MaskedConvolution) : MaskedConvolution :=
  mkMasked (set_weight (conv mc) (mul_weight (weight (conv mc)) (mask mc))) (mask mc).

Definition masked_gated (g : GatedMaskedConv) : GatedMaskedConv :=
  mkGated (apply_mask (conv_vert g)) (apply_mask (conv_horiz g))
          (conv_vert_to_horiz g) (conv_horiz_1x1 g).

Definition masked_model (m : PixelCNN) : PixelCNN :=
  mkPixelCNN (hp_c_in m) (hp_c_hidden m)
             (apply_mask (conv_vstack m)) (apply_mask (conv_hstack m))
             (map masked_gated (conv_layers m)) (conv_out m).

(** The values computed by the layers when no shape check fails. *)
Definition masked_out (mc : MaskedConvolution) (x : tensor4 R) : tensor4 R :=
  conv2d_out (conv (apply_mask mc)) x.

Definition gate_out (t : tensor4 R) : tensor4 R :=
  tzip_out Rmult (tmap tanh (chunk_lo t)) (tmap sigmoid (chunk_hi t)).

Definition gated_v (g : GatedMaskedConv) (v : tensor4 R) : tensor4 R :=
  gate_out (masked_out (conv_vert g) v).

Definition gated_h (g : GatedMaskedConv) (v h : tensor4 R) : tensor4 R :=
  let h_feat := tzip_out Rplus (masked_out (conv_horiz g) h)
                  (conv2d_out (conv_vert_to_horiz g) (masked_out (conv_vert g) v)) in
  tzip_out Rplus (conv2d_out (conv_horiz_1x1 g) (gate_out h_feat)) h.

Fixpoint layers_out (layers : list GatedMaskedConv) (v h : tensor4 R)
    : tensor4 R * tensor4 R :=
  match layers with
  | [] => (v, h)
  | g :: rest => layers_out rest (gated_v g v) (gated_h g v h)
  end.

Definition logits_out (m : PixelCNN) (x : tensor4 Z) : tensor5 R :=
  let x := tmap rescale x in
  let vh := layers_out (conv_layers m)
              (masked_out (conv_vstack m) x) (masked_out (conv_hstack m) x) in
  reshape_out (conv2d_out (conv_out m) (tmap elu (snd vh))).

(** The model as the constructor leaves it. *)
Definition model (c_in c_hidden : nat) (p : model_params) : PixelCNN :=
  mkPixelCNN c_in c_hidden
    (vconv c_in c_hidden true 1 (p_vstack p))
    (hconv c_in c_hidden true 1 (p_hstack p))
    (map (fun jd => gated c_hidden (snd jd) (p_layers p (fst jd)))
         (combine (seq 0 (length dilations)) dilations))
    (Conv2d_1x1 c_hidden (c_in * 256) (p_out p)).

(** A model is well formed when it has the layers the constructor
    builds, whatever the values of its weights and biases. *)
Definition well_formed (c_in c_hidden : nat) (m : PixelCNN) : Prop :=
  hp_c_in m = c_in /\ hp_c_hidden m = c_hidden /\
  (exists p, conv_vstack m = vconv c_in c_hidden true 1 p) /\
  (exists p, conv_hstack m = hconv c_in c_hidden true 1 p) /\
  Forall (is_gated c_hidden) (conv_layers m) /\
  (exists p, conv_out m = Conv2d_1x1 c_hidden (c_in * 256) p).

(** Raster-then-channel order on cells (h, w, c). *)
Definition pos_lt (p q : nat * nat * nat) : Prop :=
  let '(h1, w1, c1) := p in
  let '(h2, w2, c2) := q in
  h1 < h2 \/ (h1 = h2 /\ (w1 < w2 \/ (w1 = w2 /\ c1 < c2))).

Definition pos_le (p q : nat * nat * nat) : Prop := pos_lt p q \/ p = q.

(** A cell of an image. *)
Definition in_image {A : Type} (x : tensor4 A) (p : nat * nat * nat) : Prop :=
  let '(h, w, c) := p in h < tH x /\ w < tW x /\ c < tC x.

(** An image whose intensities all lie in [0, 255]. *)
Definition valid_image (x : tensor4 Z) : Prop :=
  forall b c y w, b < tB x -> c < tC x -> y < tH x -> w < tW x ->
    (0 <= dat x b c y w <= 255)%Z.

(** A seed image: every cell is unfilled (-1) or an intensity. *)
Definition valid_seed (x : tensor4 Z) : Prop :=
  forall b c y w, b < tB x -> c < tC x -> y < tH x -> w < tW x ->
    dat x b c y w = (-1)%Z \/ (0 <= dat x b c y w <= 255)%Z.

(** The cells of a (C, H, W) image in the order of three nested loops,
    over rows, then columns, then channels. *)
Definition scan_order (C H W : nat) : list (nat * nat * nat) :=
  flat_map (fun h => flat_map (fun w => map (fun c => (h, w, c)) (seq 0 C)) (seq 0 W))
           (seq 0 H).

(** What the library promises of [multinomial]: given rows of
    non-negative weights with a positive sum, one class index per row. *)
Definition multinomial_ok {RNG : Type}
    (multinomial : RNG -> nat -> nat -> (nat -> nat -> R) -> list Z * RNG) : Prop :=
  forall g rows classes probs,
    (forall b, b < rows ->
       (forall k, k < classes -> (0 <= probs b k)%R) /\
       (0 < sum_n classes (probs b))%R) ->
    length (fst (multinomial g rows classes probs)) = rows /\
    Forall (fun v => (0 <= v < Z.of_nat classes)%Z) (fst (multinomial g rows classes probs)).

(** The probabilities handed to [multinomial] at cell (h, w, c). *)
Definition cell_probs (m : PixelCNN) (img : tensor4 Z) (h w c : nat) : nat -> nat -> R :=
  fun b => softmax 256 (fun k => dat5 (logits_out m (crop_rows (h + 1) img)) b k c h w).

(** ** Concrete layers and inputs *)

(** A horizontal-stack convolution on one channel, all weights 1. *)
Definition ex_hconv : MaskedConvolution :=
  MaskedConvolution_init 1 1 [[1; 1; 0]]%R 1 ([[[[1; 1; 1]]]]%R, [0%R]).


Definition ex_input : tensor4 R := mkT4 1 1 1 1 (fun _ _ _ _ => 0%R).

(** A model with one image channel and one hidden channel, every weight
    1 and every bias 0. *)
Definition const_params (c_out c_in kH kW : nat) : params :=
  (repeat (repeat (repeat (repeat 1%R kW) kH) c_in) c_out, repeat 0%R c_out).

Definition ex_params : model_params :=
  mkModelParams (const_params 1 1 3 3) (const_params 1 1 1 3)
    (fun _ => mkGatedParams (const_params 2 1 3 3) (const_params 2 1 1 3)
                            (const_params 2 2 1 1) (const_params 1 1 1 1))
    (const_params 256 1 1 1).

Definition ex_model : PixelCNN := model 1 1 ex_params.

(** Two 2 x 2 images that differ in their last pixel only. *)
Definition ex_img1 : tensor4 Z := mkT4 1 1 2 2 (fun _ _ _ _ => 0%Z).
Definition ex_img2 : tensor4 Z :=
  mkT4 1 1 2 2 (fun _ _ y x => if (y =? 1) && (x =? 1) then 255%Z else 0%Z).

(** A random source that always draws class 0, and counts its calls. *)
Definition ex_multinomial (g rows classes : nat) (probs : nat -> nat -> R) : list Z * nat :=
  (repeat 0%Z rows, S g).

(** An image with an intensity outside [0, 255]. *)
Definition ex_img_bad : tensor4 Z := mkT4 1 1 1 1 (fun _ _ _ _ => 300%Z).

(** ** Further definitions *)

Unset Implicit Arguments.

(** Number of rows (columns) that a mask keeps. *)
Definition kept (k : nat) (mask_center : bool) : nat :=
  k / 2 + (if mask_center then 0 else 1).

(** Positions at most r rows above row h and at most r columns to either
    side of column w; and those of them that are raster positions down to
    (h, w). *)
Definition window (h w W r y x : nat) : Prop :=
  y <= h /\ h <= y + r /\ x <= w + r /\ w <= x + r /\ x < W.

Definition causal_window (h w W r y x : nat) : Prop :=
  window h w W r y x /\ (y < h \/ x <= w).

Definition gated_dilation (g : GatedMaskedConv) : nat := dilation (conv (conv_vert g)).

(** Rows and columns that the logits of a cell can reach. *)
Definition reach (m : PixelCNN) : nat :=
  1 + fold_right (fun g n => gated_dilation g + n) 0 (conv_layers m).






(** The metrics logged so far, oldest first. *)
Definition metrics : Type := list (string * R).

(** [self.log(name, value)] *)
Definition log (name : string) (value : R) (ms : metrics) : metrics :=
  ms ++ [(name, value)].

Section Steps.

(** The type of the labels, the second component of a batch. *)
Variable L : Type.

Definition training_step (m : PixelCNN) (ms : metrics) (batch : tensor4 Z * L)
    (batch_idx : nat) : result (R * PixelCNN * metrics) :=
  '(loss, m') <- calc_likelihood m (fst batch) ;;
  Ok (loss, m', log "train_bpd" loss ms).

Definition validation_step (m : PixelCNN) (ms : metrics) (batch : tensor4 Z * L)
    (batch_idx : nat) : result (PixelCNN * metrics) :=
  '(loss, m') <- calc_likelihood m (fst batch) ;;
  Ok (m', log "val_bpd" loss ms).

Definition test_step (m : PixelCNN) (ms : metrics) (batch : tensor4 Z * L)
    (batch_idx : nat) : result (PixelCNN * metrics) :=
  '(loss, m') <- calc_likelihood m (fst batch) ;;
  Ok (m', log "test_bpd" loss ms).

End Steps.

(** More concrete inputs. *)
Definition ex_feat : tensor4 R := mkT4 1 1 2 2 (fun _ _ _ _ => 0%R).
Definition ex_feat1 : tensor4 R := mkT4 1 1 2 2 (fun _ _ _ _ => 1%R).

(** An image with two channels. *)
Definition ex_img_two : tensor4 Z := mkT4 1 2 1 1 (fun _ _ _ _ => 0%Z).

(** The concrete model with the weight and bias of its output
    convolution set to zero. *)
Definition zero_params (c_out c_in kH kW : nat) : params :=
  (repeat (repeat (repeat (repeat 0%R kW) kH) c_in) c_out, repeat 0%R c_out).

Definition ex_params_zero_out : model_params :=
  mkModelParams (p_vstack ex_params) (p_hstack ex_params) (p_layers ex_params)
                (zero_params 256 1 1 1).

Definition ex_model_zero_out : PixelCNN := model 1 1 ex_params_zero_out.

(** * Properties *)

Unset Implicit Arguments.

Lemma is_zero_0 : is_zero 0 = true.
Proof. unfold is_zero. destruct (Req_dec_T 0 0); [reflexivity | contradiction]. Qed.

Lemma is_zero_1 : is_zero 1 = false.
Proof. unfold is_zero. destruct (Req_dec_T 1 0); [lra | reflexivity]. Qed.

Example vertical_mask_3_center :
  vertical_mask 3 true = Ok [[1; 1; 1]; [0; 0; 0]; [0; 0; 0]]%R.
Proof. reflexivity. Qed.

Example horizontal_mask_3 : horizontal_mask 3 false = Ok [[1; 1; 0]]%R.
Proof. reflexivity. Qed.

(** ** Mask construction *)

Ltac count_mask :=
  unfold count_zeros; cbn [fold_right filter];
  repeat (rewrite ?is_zero_0, ?is_zero_1; cbn [fold_right filter]);
  reflexivity.

Ltac eval_mask := eexists; split; [cbn; reflexivity | count_mask].

(** C4. For each kernel extent k in {3, 5, 7}: the vertical mask has
    (k/2 + 1) * k zero entries when the centre is masked and (k/2) * k
    when it is not; the horizontal mask has k/2 + 1 zero entries when the
    centre is masked and k/2 when it is not. *)
Theorem mask_zero_counts (k : nat) (Hk : k = 3 \/ k = 5 \/ k = 7) :
  (exists m, vertical_mask k true = Ok m /\ count_zeros m = (k / 2 + 1) * k) /\
  (exists m, vertical_mask k false = Ok m /\ count_zeros m = (k / 2) * k) /\
  (exists m, horizontal_mask k true = Ok m /\ count_zeros m = k / 2 + 1) /\
  (exists m, horizontal_mask k false = Ok m /\ count_zeros m = k / 2).
Proof.
  destruct Hk as [-> | [-> | ->]]; repeat split; eval_mask.
Qed.

Lemma mask_zero_counts_witness :
  (3 = 3 \/ 3 = 5 \/ 3 = 7) /\
  (exists m, vertical_mask 3 true = Ok m /\ count_zeros m = (3 / 2 + 1) * 3).
Proof.
  split; [left; reflexivity |].
  exact (proj1 (mask_zero_counts 3 (or_introl eq_refl))).
Defined.

(** ** Multiplication by the mask *)

Lemma zipWith_mult_idem (row m : list R) :
  Forall (fun v => v = 0 \/ v = 1)%R m ->
  zipWith Rmult (zipWith Rmult row m) m = zipWith Rmult row m.
Proof.
  intros Hm. revert row.
  induction Hm as [| v m Hv Hm IH]; intros [| a row]; simpl; try reflexivity.
  rewrite IH. f_equal. destruct Hv as [-> | ->]; ring.
Qed.

Lemma mul_kernel_idem (k m : kernel) :
  binary_mask m -> mul_kernel (mul_kernel k m) m = mul_kernel k m.
Proof.
  unfold mul_kernel. intros Hm. revert k.
  induction Hm as [| r m Hr Hm IH]; intros [| a k]; simpl; try reflexivity.
  rewrite IH, zipWith_mult_idem by assumption. reflexivity.
Qed.

Lemma mul_weight_idem (w : weight4) (m : kernel) :
  binary_mask m -> mul_weight (mul_weight w m) m = mul_weight w m.
Proof.
  intros Hm. unfold mul_weight. rewrite map_map.
  apply map_ext. intros l. rewrite map_map.
  apply map_ext. intros k. apply mul_kernel_idem, Hm.
Qed.

Lemma expand_Forall {A : Type} (P : A -> Prop) (n : nat) (l l' : list A) :
  expand n l = Ok l' -> Forall P l -> Forall P l'.
Proof.
  unfold expand. destruct (length l =? n).
  - intros [= <-]. trivial.
  - destruct l as [| a [| b l]]; try discriminate.
    intros [= <-] Ha. inversion Ha; subst.
    clear Ha. induction n; simpl; constructor; assumption.
Qed.

Lemma mapM_expand_Forall (P : list R -> Prop) (n : nat) (rows rows' : kernel) :
  (forall r r', expand n r = Ok r' -> P r -> P r') ->
  mapM (expand n) rows = Ok rows' -> Forall P rows -> Forall P rows'.
Proof.
  intros HP. revert rows'.
  induction rows as [| r rows IH]; simpl; intros rows'.
  - intros [= <-]. trivial.
  - destruct (expand n r) as [r' |] eqn:Hr; simpl; try discriminate.
    destruct (mapM (expand n) rows) as [rs |] eqn:Hrs; simpl; try discriminate.
    intros [= <-] Hall. inversion Hall; subst.
    constructor; [eapply HP; eassumption | apply IH; trivial].
Qed.

Lemma expand_mask_binary (ks : nat * nat) (m m' : kernel) :
  expand_mask ks m = Ok m' -> binary_mask m -> binary_mask m'.
Proof.
  unfold expand_mask, binary_mask.
  destruct (expand (fst ks) m) as [rows |] eqn:Hrows; simpl; try discriminate.
  intros Hm' Hm.
  eapply mapM_expand_Forall; [| exact Hm' | eapply expand_Forall; eassumption].
  intros r r' Hr. apply expand_Forall with (1 := Hr).
Qed.

Lemma MaskedConvolution_forward_inv (mc : MaskedConvolution) (x y : tensor4 R)
    (mc' : MaskedConvolution) :
  MaskedConvolution_forward mc x = Ok (y, mc') ->
  exists m',
    expand_mask (kernel_size (conv mc)) (mask mc) = Ok m' /\
    mc' = mkMasked (set_weight (conv mc) (mul_weight (weight (conv mc)) m')) (mask mc) /\
    conv2d (conv mc') x = Ok y.
Proof.
  unfold MaskedConvolution_forward, imul_mask.
  destruct (expand_mask _ _) as [m' |]; simpl; try discriminate.
  destruct (conv2d _ x) as [y' |] eqn:Hy; simpl; try discriminate.
  intros [= <- <-]. exists m'. simpl. auto.
Qed.

(** C10. For a 0/1 mask, multiplying by the mask twice is multiplying
    once; hence a second call of [MaskedConvolution.forward] on the same
    input returns the output of the first, and leaves the layer, stored
    weight included, as the first call left it. *)
Theorem masking_idempotent (mc : MaskedConvolution) (Hm : binary_mask (mask mc)) :
  (forall w, mul_weight (mul_weight w (mask mc)) (mask mc) = mul_weight w (mask mc)) /\
  (forall x y mc1,
     MaskedConvolution_forward mc x = Ok (y, mc1) ->
     MaskedConvolution_forward mc1 x = Ok (y, mc1)).
Proof.
  split.
  - intros w. apply mul_weight_idem, Hm.
  - intros x y mc1 H1.
    destruct (MaskedConvolution_forward_inv _ _ _ _ H1) as (m' & Hexp & -> & Hy).
    simpl in Hy.
    unfold MaskedConvolution_forward, imul_mask. simpl.
    rewrite Hexp. simpl. unfold set_weight at 1 2. simpl.
    rewrite mul_weight_idem by (eapply expand_mask_binary; eassumption).
    unfold set_weight in Hy. rewrite Hy. reflexivity.
Qed.

Lemma masking_idempotent_witness :
  binary_mask (mask ex_hconv) /\
  exists y mc1,
    MaskedConvolution_forward ex_hconv ex_input = Ok (y, mc1) /\
    MaskedConvolution_forward mc1 ex_input = Ok (y, mc1).
Proof.
  assert (Hm : binary_mask (mask ex_hconv)).
  { unfold binary_mask. simpl.
    repeat (apply Forall_cons || apply Forall_nil);
      solve [left; reflexivity | right; reflexivity]. }
  split; [exact Hm |].
  eexists. eexists. split; [reflexivity |].
  apply (proj2 (masking_idempotent ex_hconv Hm)). reflexivity.
Defined.

(** C2, as stated, fails: one application of a masked convolution whose
    stored weight is 1 everywhere leaves a stored weight that differs from
    the one before the call. *)
Lemma stored_weight_overwritten :
  exists y mc',
    MaskedConvolution_forward ex_hconv ex_input = Ok (y, mc') /\
    weight (conv mc') <> weight (conv ex_hconv).
Proof.
  eexists. eexists. split; [reflexivity |].
  simpl. intros H. injection H as _ _ H. lra.
Qed.

(** ** Mask and kernel dimensions *)

Lemma expand_same {A : Type} (n : nat) (l : list A) :
  length l = n -> expand n l = Ok l.
Proof. intros H. unfold expand. rewrite H, Nat.eqb_refl. reflexivity. Qed.

Lemma mapM_expand_same (n : nat) (rows : kernel) :
  Forall (fun row => length row = n) rows -> mapM (expand n) rows = Ok rows.
Proof.
  induction 1 as [| r rows Hr _ IH]; simpl; [reflexivity |].
  rewrite (expand_same n r Hr), IH. reflexivity.
Qed.

Lemma expand_mask_same (m : kernel) :
  rectangular m -> expand_mask (mask_dims m) m = Ok m.
Proof.
  intros H. unfold expand_mask. simpl.
  rewrite (expand_same (length m) m eq_refl). simpl. apply mapM_expand_same, H.
Qed.




(** ** Sums and masked weights *)

Lemma sum_n_ext (n : nat) (f g : nat -> R) :
  (forall i, i < n -> f i = g i) -> sum_n n f = sum_n n g.
Proof.
  induction n as [| n IH]; intros H; simpl; [reflexivity |].
  rewrite IH, H by auto. reflexivity.
Qed.

Lemma nth_zipWith_mult (row m : list R) (i : nat) :
  nth i (zipWith Rmult row m) 0%R = (nth i row 0 * nth i m 0)%R.
Proof.
  revert m i. induction row as [| a row IH]; intros m i.
  - simpl. destruct i; ring.
  - destruct m as [| v m]; simpl.
    + destruct i; ring.
    + destruct i; [reflexivity | apply IH].
Qed.

Lemma nth_mul_kernel (k m : kernel) (ky : nat) :
  nth ky (mul_kernel k m) [] = zipWith Rmult (nth ky k []) (nth ky m []).
Proof.
  unfold mul_kernel. revert m ky.
  induction k as [| r k IH]; intros m ky.
  - simpl. destruct ky; reflexivity.
  - destruct m as [| v m]; simpl.
    + destruct ky; simpl; [| destruct (nth ky k [])]; destruct r; reflexivity.
    + destruct ky; [reflexivity | apply IH].
Qed.

Lemma get4_mul_weight (w : weight4) (m : kernel) (o i ky kx : nat) :
  get4 (mul_weight w m) o i ky kx = (get4 w o i ky kx * get2 m ky kx)%R.
Proof.
  unfold get4, get2, mul_weight.
  pose proof (map_nth (map (fun k => mul_kernel k m)) w [] o) as Ho.
  simpl in Ho. rewrite Ho.
  pose proof (map_nth (fun k => mul_kernel k m) (nth o w []) [] i) as Hi.
  cbv beta in Hi. change (mul_kernel [] m) with (@nil (list R)) in Hi. rewrite Hi.
  rewrite nth_mul_kernel. apply nth_zipWith_mult.
Qed.

(** ** Reading through the padding *)

Lemma getpad_agree (b h W : nat) (P : nat -> nat -> Prop) (s t : tensor4 R)
    (c : nat) (r q : Z) :
  agree b h W P s t -> c < tC s ->
  (r <= Z.of_nat h)%Z ->
  ((0 <= r)%Z -> (0 <= q < Z.of_nat W)%Z -> P (Z.to_nat r) (Z.to_nat q)) ->
  getpad s b c r q = getpad t b c r q.
Proof.
  intros (Hs & Ht & Ws & Wt & _ & Hdat) Hc Hr HP.
  unfold getpad. rewrite Ws, Wt.
  destruct (0 <=? r)%Z eqn:E1; simpl; [| reflexivity].
  apply Z.leb_le in E1.
  assert (E2 : (r <? Z.of_nat (tH s))%Z = true) by (apply Z.ltb_lt; lia).
  assert (E3 : (r <? Z.of_nat (tH t))%Z = true) by (apply Z.ltb_lt; lia).
  rewrite E2, E3. simpl.
  destruct (0 <=? q)%Z eqn:E4; simpl; [| reflexivity].
  destruct (q <? Z.of_nat W)%Z eqn:E5; [| reflexivity].
  apply Z.leb_le in E4. apply Z.ltb_lt in E5.
  apply Hdat; [exact Hc | apply HP; lia].
Qed.

Lemma conv2d_out_masked_agree (b : nat) (cv : Conv2d) (m : kernel)
    (x1 x2 : tensor4 R) (o y xx : nat) :
  (forall i ky kx,
     i < in_channels cv -> ky < fst (kernel_size cv) -> kx < snd (kernel_size cv) ->
     get2 m ky kx <> 0%R ->
     getpad x1 b i (Z.of_nat y + Z.of_nat (ky * dilation cv) - Z.of_nat (fst (padding cv)))
                   (Z.of_nat xx + Z.of_nat (kx * dilation cv) - Z.of_nat (snd (padding cv)))
     = getpad x2 b i (Z.of_nat y + Z.of_nat (ky * dilation cv) - Z.of_nat (fst (padding cv)))
                     (Z.of_nat xx + Z.of_nat (kx * dilation cv) - Z.of_nat (snd (padding cv)))) ->
  dat (conv2d_out (set_weight cv (mul_weight (weight cv) m)) x1) b o y xx
  = dat (conv2d_out (set_weight cv (mul_weight (weight cv) m)) x2) b o y xx.
Proof.
  intros H. unfold conv2d_out, set_weight. simpl. f_equal.
  apply sum_n_ext. intros i Hi.
  apply sum_n_ext. intros ky Hky.
  apply sum_n_ext. intros kx Hkx.
  rewrite get4_mul_weight.
  destruct (Req_dec (get2 m ky kx) 0) as [-> | Hnz].
  - ring.
  - rewrite H by assumption. reflexivity.
Qed.

Lemma conv2d_out_agree (b : nat) (cv : Conv2d) (x1 x2 : tensor4 R) (o y xx : nat) :
  (forall i ky kx,
     i < in_channels cv -> ky < fst (kernel_size cv) -> kx < snd (kernel_size cv) ->
     getpad x1 b i (Z.of_nat y + Z.of_nat (ky * dilation cv) - Z.of_nat (fst (padding cv)))
                   (Z.of_nat xx + Z.of_nat (kx * dilation cv) - Z.of_nat (snd (padding cv)))
     = getpad x2 b i (Z.of_nat y + Z.of_nat (ky * dilation cv) - Z.of_nat (fst (padding cv)))
                     (Z.of_nat xx + Z.of_nat (kx * dilation cv) - Z.of_nat (snd (padding cv)))) ->
  dat (conv2d_out cv x1) b o y xx = dat (conv2d_out cv x2) b o y xx.
Proof.
  intros H. unfold conv2d_out. simpl. f_equal.
  apply sum_n_ext. intros i Hi.
  apply sum_n_ext. intros ky Hky.
  apply sum_n_ext. intros kx Hkx.
  rewrite H by assumption. reflexivity.
Qed.

(** ** Shapes, and the checks that pass *)

Ltac shapes :=
  unfold shape4, shape5, gate_out, masked_out, same_padding in *;
  cbn [tB tC tH tW dat uB uK uC uH uW tzip_out tmap chunk_lo chunk_hi reshape_out
       conv2d_out apply_mask set_weight conv mask vconv hconv Conv2d_1x1 crop_rows
       in_channels out_channels kernel_size dilation padding fst snd] in *;
  change (3 - 1) with 2 in *; change (1 - 1) with 0 in *.

Lemma half_even (n c : nat) : n = 2 * c -> (n + 1) / 2 = c.
Proof.
  intros ->. replace (2 * c + 1) with (c * 2 + 1) by lia.
  rewrite Nat.div_add_l by lia. simpl. lia.
Qed.

Lemma shape4_inv {A : Type} (t : tensor4 A) (B C H W : nat) :
  shape4 t = (B, C, H, W) -> tB t = B /\ tC t = C /\ tH t = H /\ tW t = W.
Proof. unfold shape4. intros [= -> -> -> ->]. auto. Qed.

Lemma shape5_inv {A : Type} (t : tensor5 A) (B K C H W : nat) :
  shape5 t = (B, K, C, H, W) ->
  uB t = B /\ uK t = K /\ uC t = C /\ uH t = H /\ uW t = W.
Proof. unfold shape5. intros [= -> -> -> -> ->]. auto 6. Qed.

Lemma conv2d_eq (cv : Conv2d) (x : tensor4 R) :
  same_padding cv -> tC x = in_channels cv -> 1 <= tH x -> 1 <= tW x ->
  conv2d cv x = Ok (conv2d_out cv x).
Proof.
  intros [HH HW] HC H1 W1. unfold conv2d.
  rewrite (proj2 (Nat.eqb_eq _ _) HC).
  rewrite (proj2 (Nat.leb_le _ _)) by lia.
  rewrite (proj2 (Nat.leb_le _ _)) by lia.
  reflexivity.
Qed.

Lemma conv2d_out_shape (cv : Conv2d) (x : tensor4 R) :
  same_padding cv ->
  shape4 (conv2d_out cv x) = (tB x, out_channels cv, tH x, tW x).
Proof.
  intros [HH HW]. unfold shape4, conv2d_out. cbn [tB tC tH tW].
  repeat f_equal; lia.
Qed.

Lemma tzip_eq (f : R -> R -> R) (s t : tensor4 R) :
  shape4 s = shape4 t -> tzip f s t = Ok (tzip_out f s t).
Proof.
  unfold shape4, tzip, same_shape. intros [= -> -> -> ->].
  rewrite !Nat.eqb_refl. reflexivity.
Qed.

Lemma chunk2_eq (t : tensor4 R) :
  2 <= tC t -> chunk2 t = Ok (chunk_lo t, chunk_hi t).
Proof.
  intros H. unfold chunk2.
  destruct (tC t <? 2) eqn:E; [apply Nat.ltb_lt in E; lia | reflexivity].
Qed.

Lemma gate_out_shape (t : tensor4 R) (c : nat) :
  tC t = 2 * c -> shape4 (gate_out t) = (tB t, c, tH t, tW t).
Proof. intros H. shapes. rewrite (half_even _ _ H). reflexivity. Qed.

Lemma gate_eq (t : tensor4 R) (c : nat) :
  tC t = 2 * c -> 1 <= c ->
  (' (val, gate) <- chunk2 t ;; tzip Rmult (tmap tanh val) (tmap sigmoid gate))
  = Ok (gate_out t).
Proof.
  intros H Hc. rewrite chunk2_eq by lia. cbn [bind].
  rewrite tzip_eq; [reflexivity |].
  shapes. rewrite (half_even _ _ H). repeat f_equal. lia.
Qed.

Lemma mask_fits_vmask (center : bool) : expand_mask (3, 3) (vmask center) = Ok (vmask center).
Proof. destruct center; reflexivity. Qed.

Lemma mask_fits_hmask (center : bool) : expand_mask (1, 3) (hmask center) = Ok (hmask center).
Proof. destruct center; reflexivity. Qed.

Lemma MaskedConvolution_forward_eq (mc : MaskedConvolution) (x : tensor4 R) :
  expand_mask (kernel_size (conv mc)) (mask mc) = Ok (mask mc) ->
  same_padding (conv mc) -> tC x = in_channels (conv mc) ->
  1 <= tH x -> 1 <= tW x ->
  MaskedConvolution_forward mc x = Ok (masked_out mc x, apply_mask mc).
Proof.
  intros Hfit Hpad HC H1 W1.
  unfold MaskedConvolution_forward, imul_mask. rewrite Hfit. cbn [bind].
  rewrite conv2d_eq; trivial.
Qed.

Lemma vconv_forward_eq (ci co : nat) (center : bool) (d : nat) (p : params)
    (x : tensor4 R) :
  tC x = ci -> 1 <= tH x -> 1 <= tW x ->
  MaskedConvolution_forward (vconv ci co center d p) x
  = Ok (masked_out (vconv ci co center d p) x, apply_mask (vconv ci co center d p)).
Proof.
  intros. apply MaskedConvolution_forward_eq; trivial.
  - apply mask_fits_vmask.
  - split; simpl; lia.
Qed.

Lemma hconv_forward_eq (ci co : nat) (center : bool) (d : nat) (p : params)
    (x : tensor4 R) :
  tC x = ci -> 1 <= tH x -> 1 <= tW x ->
  MaskedConvolution_forward (hconv ci co center d p) x
  = Ok (masked_out (hconv ci co center d p) x, apply_mask (hconv ci co center d p)).
Proof.
  intros. apply MaskedConvolution_forward_eq; trivial.
  - apply mask_fits_hmask.
  - split; simpl; lia.
Qed.

Lemma vconv_out_shape (ci co : nat) (center : bool) (d : nat) (p : params)
    (x : tensor4 R) :
  shape4 (masked_out (vconv ci co center d p) x) = (tB x, co, tH x, tW x).
Proof. shapes. repeat f_equal; lia. Qed.

Lemma hconv_out_shape (ci co : nat) (center : bool) (d : nat) (p : params)
    (x : tensor4 R) :
  shape4 (masked_out (hconv ci co center d p) x) = (tB x, co, tH x, tW x).
Proof. shapes. repeat f_equal; lia. Qed.

Lemma conv1x1_out_shape (ci co : nat) (p : params) (x : tensor4 R) :
  shape4 (conv2d_out (Conv2d_1x1 ci co p) x) = (tB x, co, tH x, tW x).
Proof. shapes. repeat f_equal; lia. Qed.

Lemma conv1x1_eq (ci co : nat) (p : params) (x : tensor4 R) :
  tC x = ci -> 1 <= tH x -> 1 <= tW x ->
  conv2d (Conv2d_1x1 ci co p) x = Ok (conv2d_out (Conv2d_1x1 ci co p) x).
Proof. intros. apply conv2d_eq; trivial. split; simpl; lia. Qed.

Ltac side :=
  shapes; subst;
  rewrite ?(half_even (2 * _) _ eq_refl);
  repeat match goal with |- (_, _) = (_, _) => apply f_equal2 end;
  try reflexivity; try lia.

Lemma gated_out_shapes (c d : nat) (p : gated_params) (v h : tensor4 R)
    (B H W : nat) :
  shape4 v = (B, c, H, W) -> shape4 h = (B, c, H, W) ->
  shape4 (gated_v (gated c d p) v) = (B, c, H, W) /\
  shape4 (gated_h (gated c d p) v h) = (B, c, H, W).
Proof.
  intros Hv Hh.
  apply shape4_inv in Hv. destruct Hv as (? & ? & ? & ?).
  apply shape4_inv in Hh. destruct Hh as (? & ? & ? & ?).
  unfold gated_v, gated_h, gated. cbn [conv_vert conv_horiz conv_vert_to_horiz conv_horiz_1x1].
  split; side.
Qed.

Lemma GatedMaskedConv_forward_eq (c d : nat) (p : gated_params) (v h : tensor4 R)
    (B H W : nat) :
  shape4 v = (B, c, H, W) -> shape4 h = (B, c, H, W) ->
  1 <= c -> 1 <= H -> 1 <= W ->
  GatedMaskedConv_forward (gated c d p) v h
  = Ok (gated_v (gated c d p) v, gated_h (gated c d p) v h, masked_gated (gated c d p)).
Proof.
  intros Hv Hh Hc H1 W1.
  apply shape4_inv in Hv. destruct Hv as (? & ? & ? & ?).
  apply shape4_inv in Hh. destruct Hh as (? & ? & ? & ?).
  unfold GatedMaskedConv_forward, gated_v, gated_h, masked_gated, gated.
  cbn [conv_vert conv_horiz conv_vert_to_horiz conv_horiz_1x1].
  rewrite vconv_forward_eq by lia. cbn [bind].
  rewrite chunk2_eq by side. cbn [bind].
  rewrite tzip_eq by side. cbn [bind].
  rewrite hconv_forward_eq by lia. cbn [bind].
  rewrite conv1x1_eq by side. cbn [bind].
  rewrite tzip_eq by side. cbn [bind].
  rewrite chunk2_eq by side. cbn [bind].
  rewrite tzip_eq by side. cbn [bind].
  rewrite conv1x1_eq by side. cbn [bind].
  rewrite tzip_eq by side. cbn [bind].
  reflexivity.
Qed.

(** ** The constructor *)

Lemma PixelCNN_init_eq (c_in c_hidden : nat) (p : model_params) :
  PixelCNN_init c_in c_hidden p = Ok (model c_in c_hidden p).
Proof. reflexivity. Qed.

Lemma model_well_formed (c_in c_hidden : nat) (p : model_params) :
  well_formed c_in c_hidden (model c_in c_hidden p).
Proof.
  unfold well_formed, model. cbn [hp_c_in hp_c_hidden conv_vstack conv_hstack conv_layers conv_out].
  repeat split; try (eexists; reflexivity).
  apply Forall_forall. intros g Hg. apply in_map_iff in Hg.
  destruct Hg as (jd & <- & _). eexists. eexists. reflexivity.
Qed.

Example ex_model_init : PixelCNN_init 1 1 ex_params = Ok ex_model.
Proof. reflexivity. Qed.

Lemma PixelCNN_init_well_formed (c_in c_hidden : nat) (p : model_params) (m : PixelCNN) :
  PixelCNN_init c_in c_hidden p = Ok m -> well_formed c_in c_hidden m.
Proof.
  rewrite PixelCNN_init_eq. intros [= <-]. apply model_well_formed.
Qed.

Lemma masked_model_well_formed (c_in c_hidden : nat) (m : PixelCNN) :
  well_formed c_in c_hidden m -> well_formed c_in c_hidden (masked_model m).
Proof.
  intros (Hi & Hh & (pv & Hv) & (ph & Hhs) & Hl & Ho).
  unfold well_formed, masked_model.
  cbn [hp_c_in hp_c_hidden conv_vstack conv_hstack conv_layers conv_out].
  repeat split; trivial.
  - rewrite Hv. eexists (_, _). reflexivity.
  - rewrite Hhs. eexists (_, _). reflexivity.
  - apply Forall_forall. intros g Hg. apply in_map_iff in Hg.
    destruct Hg as (g0 & <- & Hg0).
    rewrite Forall_forall in Hl. destruct (Hl g0 Hg0) as (d & p & ->).
    exists d.
    exists (mkGatedParams (mul_weight (fst (p_vert p)) (vmask false), snd (p_vert p))
                          (mul_weight (fst (p_horiz p)) (hmask false), snd (p_horiz p))
                          (p_vert_to_horiz p) (p_horiz_1x1 p)).
    reflexivity.
Qed.

(** ** The forward pass when no check fails *)

Lemma run_layers_eq (c : nat) (layers : list GatedMaskedConv) :
  Forall (is_gated c) layers ->
  forall (v h : tensor4 R) (B H W : nat),
    shape4 v = (B, c, H, W) -> shape4 h = (B, c, H, W) ->
    1 <= c -> 1 <= H -> 1 <= W ->
    run_layers layers v h
    = Ok (fst (layers_out layers v h), snd (layers_out layers v h),
          map masked_gated layers) /\
    shape4 (fst (layers_out layers v h)) = (B, c, H, W) /\
    shape4 (snd (layers_out layers v h)) = (B, c, H, W).
Proof.
  induction 1 as [| g layers (d & p & ->) _ IH]; intros v h B H W Hv Hh Hc H1 W1.
  - simpl. auto.
  - destruct (gated_out_shapes c d p v h B H W Hv Hh) as [Hv' Hh'].
    destruct (IH _ _ B H W Hv' Hh' Hc H1 W1) as (E & S1 & S2).
    cbn [run_layers layers_out].
    rewrite (GatedMaskedConv_forward_eq c d p v h B H W) by assumption.
    cbn [bind]. rewrite E. cbn [bind map]. auto.
Qed.

Lemma PixelCNN_forward_eq (c_in c_hidden : nat) (m : PixelCNN) (x : tensor4 Z)
    (B H W : nat) :
  well_formed c_in c_hidden m -> shape4 x = (B, c_in, H, W) ->
  1 <= c_hidden -> 1 <= H -> 1 <= W ->
  PixelCNN_forward m x = Ok (logits_out m x, masked_model m) /\
  shape5 (logits_out m x) = (B, 256, c_in, H, W).
Proof.
  intros (Hi & Hh & (pv & Hv) & (ph & Hhs) & Hl & (po & Ho)) Hx Hc H1 W1.
  apply shape4_inv in Hx. destruct Hx as (HB & HC & HH & HW).
  set (x' := tmap rescale x).
  assert (Sv : shape4 (masked_out (conv_vstack m) x') = (B, c_hidden, H, W)).
  { rewrite Hv, vconv_out_shape. subst x'. side. }
  assert (Sh : shape4 (masked_out (conv_hstack m) x') = (B, c_hidden, H, W)).
  { rewrite Hhs, hconv_out_shape. subst x'. side. }
  destruct (run_layers_eq c_hidden _ Hl _ _ B H W Sv Sh Hc H1 W1) as (E & S1 & S2).
  apply shape4_inv in S2. destruct S2 as (S2B & S2C & S2H & S2W).
  split.
  - unfold PixelCNN_forward, logits_out, masked_model. fold x'.
    rewrite Hv at 1. rewrite vconv_forward_eq by (subst x'; simpl; lia).
    cbn [bind]. rewrite <- Hv.
    rewrite Hhs at 1. rewrite hconv_forward_eq by (subst x'; simpl; lia).
    cbn [bind]. rewrite <- Hhs.
    rewrite E. cbn [bind].
    rewrite Ho. rewrite conv1x1_eq by (simpl; lia). cbn [bind].
    unfold reshape_classes. cbn [tC conv2d_out out_channels Conv2d_1x1].
    rewrite Nat.div_mul by lia.
    rewrite (proj2 (Nat.eqb_eq _ _)) by lia. cbn [bind].
    rewrite Hi, Hh. reflexivity.
  - unfold logits_out. fold x'. rewrite Ho.
    unfold shape5, reshape_out.
    cbn [uB uK uC uH uW tB tC tH tW conv2d_out out_channels Conv2d_1x1 tmap
         kernel_size padding dilation fst snd].
    rewrite Nat.div_mul by lia. rewrite S2B, S2H, S2W.
    repeat match goal with |- (_, _) = (_, _) => apply f_equal2 end; try reflexivity; lia.
Qed.

Lemma conv1x1_out_shape_proj (ci co : nat) (p : params) (x : tensor4 R) :
  tH (conv2d_out (Conv2d_1x1 ci co p) x) = tH x /\
  tW (conv2d_out (Conv2d_1x1 ci co p) x) = tW x /\
  tC (conv2d_out (Conv2d_1x1 ci co p) x) = co.
Proof. shapes. repeat split; lia. Qed.

Lemma masked_out_shape_proj (mc : MaskedConvolution) (x : tensor4 R) :
  same_padding (conv mc) ->
  tH (masked_out mc x) = tH x /\ tW (masked_out mc x) = tW x /\
  tC (masked_out mc x) = out_channels (conv mc).
Proof. intros [? ?]. shapes. repeat split; lia. Qed.

(** ** Locality of the layers *)

Lemma region_ok_above (h W : nat) : region_ok h W (above h W).
Proof. intros y x [? ?]. auto. Qed.

Lemma region_ok_upto (h w W : nat) : region_ok h W (upto h w W).
Proof. intros y x [[? | [? ?]] ?]; split; lia. Qed.

Lemma agree_weaken (b h W : nat) (P Q : nat -> nat -> Prop) (s t : tensor4 R) :
  (forall y x, Q y x -> P y x) -> agree b h W P s t -> agree b h W Q s t.
Proof.
  intros HQP (Hs & Ht & Ws & Wt & HC & Hdat).
  repeat split; trivial. intros c y x Hc HQ. apply Hdat; auto.
Qed.

Lemma agree_tmap (b h W : nat) (P : nat -> nat -> Prop) (f : R -> R) (s t : tensor4 R) :
  agree b h W P s t -> agree b h W P (tmap f s) (tmap f t).
Proof.
  intros (Hs & Ht & Ws & Wt & HC & Hdat).
  repeat split; trivial. cbn [tmap dat tC]. intros c y x Hc HP.
  rewrite Hdat; trivial.
Qed.

Lemma agree_tzip_out (b h W : nat) (P : nat -> nat -> Prop) (f : R -> R -> R)
    (s1 s2 t1 t2 : tensor4 R) :
  agree b h W P s1 t1 -> agree b h W P s2 t2 -> tC s1 <= tC s2 ->
  agree b h W P (tzip_out f s1 s2) (tzip_out f t1 t2).
Proof.
  intros (Hs & Ht & Ws & Wt & HC & Hdat) (_ & _ & _ & _ & _ & Hdat2) Hle.
  repeat split; trivial. cbn [tzip_out dat tC]. intros c y x Hc HP.
  rewrite Hdat, Hdat2; trivial. lia.
Qed.

Lemma agree_gate_out (b h W : nat) (P : nat -> nat -> Prop) (s t : tensor4 R) (c : nat) :
  agree b h W P s t -> tC s = 2 * c -> agree b h W P (gate_out s) (gate_out t).
Proof.
  intros (Hs & Ht & Ws & Wt & HC & Hdat) H2.
  unfold agree. shapes. rewrite <- HC.
  rewrite (half_even _ _ H2).
  repeat split; trivial. intros c0 y x Hc HP.
  rewrite !Hdat; trivial; lia.
Qed.

Lemma agree_conv1x1 (b h W : nat) (P : nat -> nat -> Prop) (ci co : nat) (p : params)
    (s t : tensor4 R) :
  region_ok h W P -> agree b h W P s t -> tC s = ci ->
  agree b h W P (conv2d_out (Conv2d_1x1 ci co p) s) (conv2d_out (Conv2d_1x1 ci co p) t).
Proof.
  intros HP Hag HC.
  pose proof Hag as (Hs & Ht & Ws & Wt & HCt & Hdat).
  destruct (conv1x1_out_shape_proj ci co p s) as (D1 & D2 & D3).
  destruct (conv1x1_out_shape_proj ci co p t) as (E1 & E2 & E3).
  unfold agree. rewrite D1, D2, D3, E1, E2, E3.
  repeat split; trivial.
  intros o y x _ Hyx. destruct (HP y x Hyx) as [Hy Hx].
  apply conv2d_out_agree.
  cbn [Conv2d_1x1 in_channels kernel_size dilation padding fst snd].
  intros i ky kx Hi Hky Hkx.
  apply getpad_agree with (h := h) (W := W) (P := P); trivial; try lia.
  intros _ _.
  replace ky with 0 by lia. replace kx with 0 by lia.
  replace (Z.of_nat y + Z.of_nat (0 * 1) - Z.of_nat 0)%Z with (Z.of_nat y) by lia.
  replace (Z.of_nat x + Z.of_nat (0 * 1) - Z.of_nat 0)%Z with (Z.of_nat x) by lia.
  rewrite !Nat2Z.id. exact Hyx.
Qed.

(** A masked convolution maps agreement on P to agreement on Q when
    every kernel entry that the mask keeps reads, from a position in Q,
    either the padding or a position in P. *)
Lemma agree_masked_out (b h W : nat) (P Q : nat -> nat -> Prop)
    (mc : MaskedConvolution) (s t : tensor4 R) :
  same_padding (conv mc) -> agree b h W P s t -> tC s = in_channels (conv mc) ->
  (forall y x ky kx,
     Q y x -> ky < fst (kernel_size (conv mc)) -> kx < snd (kernel_size (conv mc)) ->
     get2 (mask mc) ky kx <> 0%R ->
     let r := (Z.of_nat y + Z.of_nat (ky * dilation (conv mc))
               - Z.of_nat (fst (padding (conv mc))))%Z in
     let q := (Z.of_nat x + Z.of_nat (kx * dilation (conv mc))
               - Z.of_nat (snd (padding (conv mc))))%Z in
     (r <= Z.of_nat h)%Z /\
     ((0 <= r)%Z -> (0 <= q < Z.of_nat W)%Z -> P (Z.to_nat r) (Z.to_nat q))) ->
  agree b h W Q (masked_out mc s) (masked_out mc t).
Proof.
  intros Hpad Hag HC Hreads.
  pose proof Hag as (Hs & Ht & Ws & Wt & HCt & Hdat).
  destruct (masked_out_shape_proj mc s Hpad) as (D1 & D2 & D3).
  destruct (masked_out_shape_proj mc t Hpad) as (E1 & E2 & E3).
  unfold agree. rewrite D1, D2, D3, E1, E2, E3.
  repeat split; trivial.
  intros o y x _ Hyx. unfold masked_out, apply_mask. cbn [conv].
  apply conv2d_out_masked_agree.
  intros i ky kx Hi Hky Hkx Hnz.
  destruct (Hreads y x ky kx Hyx Hky Hkx Hnz) as [Hr HP].
  apply getpad_agree with (h := h) (W := W) (P := P); trivial. lia.
Qed.

Ltac kernel_cases ky kx :=
  cbn [vconv hconv conv mask kernel_size dilation padding fst snd vmask hmask];
  intros;
  repeat match goal with
         | H : ky < _ |- _ => revert H
         | H : kx < _ |- _ => revert H
         | H : get2 _ ky kx <> _ |- _ => revert H
         end;
  destruct ky as [| [| [| ky]]]; destruct kx as [| [| [| kx]]];
  cbn [get2 nth]; intros;
  try lia; try (exfalso; auto; fail).

Lemma agree_vconv (b h W ci co d : nat) (p : params) (s t : tensor4 R) :
  agree b h W (above h W) s t -> tC s = ci ->
  agree b h W (above h W) (masked_out (vconv ci co false d p) s)
                          (masked_out (vconv ci co false d p) t).
Proof.
  intros Hag HC.
  apply agree_masked_out with (P := above h W); trivial.
  - split; simpl; lia.
  - intros y x ky kx [Hy Hx]. kernel_cases ky kx; unfold above; split; lia.
Qed.

Lemma agree_hconv (b h w W ci co d : nat) (p : params) (s t : tensor4 R) :
  agree b h W (upto h w W) s t -> tC s = ci ->
  agree b h W (upto h w W) (masked_out (hconv ci co false d p) s)
                           (masked_out (hconv ci co false d p) t).
Proof.
  intros Hag HC.
  apply agree_masked_out with (P := upto h w W); trivial.
  - split; simpl; lia.
  - intros y x ky kx [Hy Hx]. kernel_cases ky kx; unfold upto; split; lia.
Qed.

Lemma agree_vconv_center (b h w W ci co : nat) (p : params) (s t : tensor4 R) :
  agree b h W (before h w W) s t -> tC s = ci ->
  agree b h W (above h W) (masked_out (vconv ci co true 1 p) s)
                          (masked_out (vconv ci co true 1 p) t).
Proof.
  intros Hag HC.
  apply agree_masked_out with (P := before h w W); trivial.
  - split; simpl; lia.
  - intros y x ky kx [Hy Hx]. kernel_cases ky kx; unfold before; split; lia.
Qed.

Lemma agree_hconv_center (b h w W ci co : nat) (p : params) (s t : tensor4 R) :
  agree b h W (before h w W) s t -> tC s = ci ->
  agree b h W (upto h w W) (masked_out (hconv ci co true 1 p) s)
                           (masked_out (hconv ci co true 1 p) t).
Proof.
  intros Hag HC.
  apply agree_masked_out with (P := before h w W); trivial.
  - split; simpl; lia.
  - intros y x ky kx [Hy Hx]. kernel_cases ky kx; unfold before; split; lia.
Qed.

Lemma agree_gated (b h w W c d : nat) (p : gated_params) (v1 v2 h1 h2 : tensor4 R) :
  agree b h W (above h W) v1 v2 -> agree b h W (upto h w W) h1 h2 ->
  tC v1 = c -> tC h1 = c ->
  agree b h W (above h W) (gated_v (gated c d p) v1) (gated_v (gated c d p) v2) /\
  agree b h W (upto h w W) (gated_h (gated c d p) v1 h1) (gated_h (gated c d p) v2 h2).
Proof.
  intros Hv Hh Cv Ch.
  unfold gated_v, gated_h, gated.
  cbn [conv_vert conv_horiz conv_vert_to_horiz conv_horiz_1x1].
  pose proof (agree_vconv b h W c (2 * c) d (p_vert p) v1 v2 Hv Cv) as Fv.
  split.
  - apply agree_gate_out with (c := c); [exact Fv | reflexivity].
  - apply agree_tzip_out; [| exact Hh | side].
    apply agree_conv1x1; [apply region_ok_upto | | side].
    apply agree_gate_out with (c := c); [| reflexivity].
    apply agree_tzip_out; [| | side].
    + apply agree_hconv; trivial.
    + apply agree_weaken with (P := above h W).
      * intros y x [[? | [? ?]] ?]; split; lia.
      * apply agree_conv1x1; [apply region_ok_above | exact Fv | reflexivity].
Qed.

Lemma agree_layers (b h w W c : nat) (layers : list GatedMaskedConv) :
  Forall (is_gated c) layers ->
  forall v1 v2 h1 h2 : tensor4 R,
    agree b h W (above h W) v1 v2 -> agree b h W (upto h w W) h1 h2 ->
    tC v1 = c -> tC h1 = c ->
    agree b h W (upto h w W) (snd (layers_out layers v1 h1)) (snd (layers_out layers v2 h2))
    /\ tC (snd (layers_out layers v1 h1)) = c.
Proof.
  induction 1 as [| g layers (d & p & ->) _ IH]; intros v1 v2 h1 h2 Hv Hh Cv Ch.
  - simpl. auto.
  - cbn [layers_out].
    destruct (agree_gated b h w W c d p v1 v2 h1 h2 Hv Hh Cv Ch) as [Hv' Hh'].
    apply IH; trivial.
    unfold gated_v, gated. cbn [conv_vert]. side.
Qed.

(** The logits at the raster positions down to (h, w) are determined by
    the pixels at the raster positions strictly before (h, w); the two
    images may differ in their number of rows. *)
Lemma logits_causal (c_in c_hidden : nat) (m : PixelCNN) (x1 x2 : tensor4 Z)
    (b h w W : nat) :
  well_formed c_in c_hidden m ->
  tC x1 = c_in -> tC x2 = c_in -> tW x1 = W -> tW x2 = W ->
  h < tH x1 -> h < tH x2 ->
  (forall c y x, c < c_in -> before h w W y x -> dat x1 b c y x = dat x2 b c y x) ->
  forall k c y x,
    k < 256 -> c < c_in -> upto h w W y x ->
    dat5 (logits_out m x1) b k c y x = dat5 (logits_out m x2) b k c y x.
Proof.
  intros (Hi & Hh & (pv & Hv) & (ph & Hhs) & Hl & (po & Ho)) C1 C2 W1 W2 H1 H2 Hx.
  assert (Hin : agree b h W (before h w W) (tmap rescale x1) (tmap rescale x2)).
  { unfold agree. cbn [tmap tH tW tC dat]. repeat split; trivial; try lia.
    intros c y x Hc HP. rewrite Hx; trivial. lia. }
  pose proof (agree_vconv_center b h w W c_in c_hidden pv _ _ Hin C1) as Av.
  pose proof (agree_hconv_center b h w W c_in c_hidden ph _ _ Hin C1) as Ah.
  rewrite <- Hv in Av. rewrite <- Hhs in Ah.
  destruct (agree_layers b h w W c_hidden _ Hl _ _ _ _ Av Ah) as [Aout Cout].
  { rewrite Hv. side. }
  { rewrite Hhs. side. }
  apply agree_tmap with (f := elu) in Aout.
  apply (agree_conv1x1 b h W _ c_hidden (c_in * 256) po) in Aout;
    [| apply region_ok_upto | exact Cout].
  intros k c y x Hk Hc Hyx.
  unfold logits_out. rewrite Ho.
  cbn [reshape_out dat5 tC conv2d_out Conv2d_1x1 out_channels].
  rewrite Nat.div_mul by lia.
  destruct Aout as (_ & _ & _ & _ & _ & Hdat).
  apply Hdat; [| exact Hyx].
  cbn [tC conv2d_out Conv2d_1x1 out_channels]. nia.
Qed.

(** ** Causality *)

Lemma pos_lt_before (h w c h' w' c' W y x : nat) :
  pos_le (h', w', c') (h, w, c) -> before h' w' W y x ->
  forall c0, pos_lt (y, x, c0) (h, w, c).
Proof.
  unfold pos_le, pos_lt, before. intros [Hlt | [= -> -> ->]] [Hyx HW] c0; lia.
Qed.

(** C1. Take two images of the same shape and a cell (h, w, c) of
    batch element b.  [forward] returns logits for both; if the images
    coincide at (h, w, c) and at every cell before it in
    raster-then-channel order, the logits coincide at (h, w, c) and at
    every earlier cell; and the logits at (h, w, c) coincide as soon as
    the images coincide at the cells strictly before it, whatever the
    pixel values elsewhere. *)
Theorem forward_causal (c_in c_hidden : nat) (m : PixelCNN) (x1 x2 : tensor4 Z)
    (b h w c : nat) :
  well_formed c_in c_hidden m -> 1 <= c_hidden ->
  shape4 x1 = shape4 x2 -> tC x1 = c_in ->
  in_image x1 (h, w, c) ->
  exists l1 l2 m1 m2,
    PixelCNN_forward m x1 = Ok (l1, m1) /\
    PixelCNN_forward m x2 = Ok (l2, m2) /\
    ((forall h' w' c',
        in_image x1 (h', w', c') -> pos_le (h', w', c') (h, w, c) ->
        dat x1 b c' h' w' = dat x2 b c' h' w') ->
     forall h' w' c' k,
       in_image x1 (h', w', c') -> pos_le (h', w', c') (h, w, c) -> k < 256 ->
       dat5 l1 b k c' h' w' = dat5 l2 b k c' h' w') /\
    ((forall h' w' c',
        in_image x1 (h', w', c') -> pos_lt (h', w', c') (h, w, c) ->
        dat x1 b c' h' w' = dat x2 b c' h' w') ->
     forall k, k < 256 -> dat5 l1 b k c h w = dat5 l2 b k c h w).
Proof.
  intros Hwf Hch Hshape HC (Hh & Hw & Hc).
  assert (S1 : shape4 x1 = (tB x1, c_in, tH x1, tW x1)) by (unfold shape4; congruence).
  assert (S2 : shape4 x2 = (tB x1, c_in, tH x1, tW x1)) by congruence.
  destruct (PixelCNN_forward_eq c_in c_hidden m x1 _ _ _ Hwf S1) as [E1 _]; try lia.
  destruct (PixelCNN_forward_eq c_in c_hidden m x2 _ _ _ Hwf S2) as [E2 _]; try lia.
  apply shape4_inv in S2. destruct S2 as (B2 & C2 & H2 & W2).
  exists (logits_out m x1), (logits_out m x2), (masked_model m), (masked_model m).
  split; [exact E1 |]. split; [exact E2 |]. split.
  - intros Hx h' w' c' k (Hh' & Hw' & Hc') Hle Hk.
    apply (logits_causal c_in c_hidden m x1 x2 b h' w' (tW x1)); trivial; try lia.
    + intros c0 y x Hc0 Hbef.
      pose proof (pos_lt_before h w c h' w' c' _ y x Hle Hbef c0) as Hlt.
      apply Hx; [| left; exact Hlt].
      unfold before in Hbef. unfold in_image. repeat split; lia.
    + unfold upto. lia.
  - intros Hx k Hk.
    apply (logits_causal c_in c_hidden m x1 x2 b h w (tW x1)); trivial; try lia.
    + intros c0 y x Hc0 Hbef.
      apply Hx.
      * unfold before in Hbef. unfold in_image. repeat split; lia.
      * unfold before in Hbef. unfold pos_lt. lia.
    + unfold upto. lia.
Qed.

Lemma forward_causal_witness :
  exists l1 l2 m1 m2,
    PixelCNN_forward ex_model ex_img1 = Ok (l1, m1) /\
    PixelCNN_forward ex_model ex_img2 = Ok (l2, m2) /\
    forall k, k < 256 -> dat5 l1 0 k 0 0 1 = dat5 l2 0 k 0 0 1.
Proof.
  destruct (forward_causal 1 1 ex_model ex_img1 ex_img2 0 0 1 0)
    as (l1 & l2 & m1 & m2 & E1 & E2 & _ & Hstrict).
  - apply model_well_formed.
  - lia.
  - reflexivity.
  - reflexivity.
  - simpl. lia.
  - exists l1, l2, m1, m2. split; [exact E1 |]. split; [exact E2 |].
    apply Hstrict. intros h' w' c' (Hh & Hw & Hc) Hlt.
    unfold pos_lt in Hlt. simpl.
    destruct (h' =? 1) eqn:E; [apply Nat.eqb_eq in E; lia | reflexivity].
Defined.

(** ** Cropping *)

(** Cropping in exact arithmetic.  With the sums of the convolutions
    taken over the reals, [forward] on the image cropped to rows 0..h and
    [forward] on the whole image both return logits, and these coincide
    at every position of rows 0..h.  The program computes in float32,
    where the library convolution may sum in a different order for inputs
    of different height; the lemma says nothing about the last bit of
    its results. *)
Lemma crop_rows_same_logits_over_reals (c_in c_hidden : nat) (m : PixelCNN) (x : tensor4 Z)
    (h : nat) :
  well_formed c_in c_hidden m -> 1 <= c_hidden -> 1 <= c_in ->
  tC x = c_in -> h < tH x -> 1 <= tW x ->
  exists l_crop l_full m1 m2,
    PixelCNN_forward m (crop_rows (h + 1) x) = Ok (l_crop, m1) /\
    PixelCNN_forward m x = Ok (l_full, m2) /\
    forall b k c y w,
      k < 256 -> c < c_in -> y <= h -> w < tW x ->
      dat5 l_crop b k c y w = dat5 l_full b k c y w.
Proof.
  intros Hwf Hch _ HC Hh HW.
  assert (S1 : shape4 (crop_rows (h + 1) x) = (tB x, c_in, h + 1, tW x)).
  { unfold shape4, crop_rows. cbn [tB tC tH tW]. rewrite HC.
    replace (Nat.min (h + 1) (tH x)) with (h + 1) by lia. reflexivity. }
  assert (S2 : shape4 x = (tB x, c_in, tH x, tW x)) by (unfold shape4; congruence).
  destruct (PixelCNN_forward_eq c_in c_hidden m _ _ _ _ Hwf S1) as [E1 _]; try lia.
  destruct (PixelCNN_forward_eq c_in c_hidden m _ _ _ _ Hwf S2) as [E2 _]; try lia.
  apply shape4_inv in S1. destruct S1 as (B1 & C1 & H1 & W1).
  exists (logits_out m (crop_rows (h + 1) x)), (logits_out m x),
         (masked_model m), (masked_model m).
  split; [exact E1 |]. split; [exact E2 |].
  intros b k c y w Hk Hc Hy Hw.
  apply (logits_causal c_in c_hidden m _ _ b y w (tW x)); trivial; try lia.
  unfold upto. lia.
Qed.

Lemma crop_rows_same_logits_instance :
  exists l_crop l_full m1 m2,
    PixelCNN_forward ex_model (crop_rows (0 + 1) ex_img2) = Ok (l_crop, m1) /\
    PixelCNN_forward ex_model ex_img2 = Ok (l_full, m2) /\
    forall b k c y w,
      k < 256 -> c < 1 -> y <= 0 -> w < tW ex_img2 ->
      dat5 l_crop b k c y w = dat5 l_full b k c y w.
Proof.
  apply (crop_rows_same_logits_over_reals 1 1 ex_model ex_img2 0).
  - apply model_well_formed.
  - lia.
  - lia.
  - reflexivity.
  - simpl. lia.
  - simpl. lia.
Defined.

(** ** Likelihood *)

Lemma sum_n_nonneg (n : nat) (f : nat -> R) :
  (forall i, i < n -> (0 <= f i)%R) -> (0 <= sum_n n f)%R.
Proof.
  induction n as [| n IH]; intros H; simpl; [lra |].
  assert (0 <= sum_n n f)%R by (apply IH; auto).
  assert (0 <= f n)%R by (apply H; lia). lra.
Qed.

Lemma sum_n_ge_term (n : nat) (f : nat -> R) (k : nat) :
  (forall i, i < n -> (0 <= f i)%R) -> k < n -> (f k <= sum_n n f)%R.
Proof.
  induction n as [| n IH]; intros H Hk; [lia |]. simpl.
  assert (0 <= f n)%R by (apply H; lia).
  destruct (Nat.eq_dec k n) as [-> | Hne].
  - assert (0 <= sum_n n f)%R by (apply sum_n_nonneg; auto). lra.
  - assert (f k <= sum_n n f)%R by (apply IH; auto; lia). lra.
Qed.

Lemma sum_n_scal (n : nat) (f : nat -> R) (a : R) :
  sum_n n (fun i => f i * a)%R = (sum_n n f * a)%R.
Proof.
  induction n as [| n IH]; simpl; [ring | rewrite IH; ring].
Qed.

Lemma sum_exp_pos (K : nat) (l : nat -> R) : 0 < K -> (0 < sum_n K (fun k => exp (l k)))%R.
Proof.
  intros HK. pose proof (exp_pos (l 0)).
  assert (exp (l 0%nat) <= sum_n K (fun k => exp (l k)))%R.
  { apply (sum_n_ge_term K (fun k => exp (l k)) 0); [| lia].
    intros i _. left. apply exp_pos. }
  lra.
Qed.

(** The cross-entropy of a vector of logits against one of its classes
    is not negative. *)
Lemma logsumexp_ge (K : nat) (l : nat -> R) (t : nat) :
  t < K -> (l t <= logsumexp K l)%R.
Proof.
  intros Ht. unfold logsumexp.
  rewrite <- (ln_exp (l t)) at 1.
  assert (exp (l t) <= sum_n K (fun k => exp (l k)))%R.
  { apply (sum_n_ge_term K (fun k => exp (l k)) t); [| exact Ht].
    intros i _. left. apply exp_pos. }
  destruct H as [Hlt | Heq].
  - left. apply ln_increasing; [apply exp_pos | exact Hlt].
  - right. rewrite Heq. reflexivity.
Qed.

Lemma log2_e_pos : (0 < log2 (exp 1))%R.
Proof.
  unfold log2. rewrite ln_exp.
  assert (0 < ln 2)%R by (rewrite <- ln_1; apply ln_increasing; lra).
  apply Rdiv_lt_0_compat; lra.
Qed.

Lemma in_bounds4_valid (x : tensor4 Z) : valid_image x -> in_bounds4 256 x = true.
Proof.
  intros Hv. unfold in_bounds4.
  apply forallb_forall. intros b Hb. apply in_seq in Hb.
  apply forallb_forall. intros c Hc. apply in_seq in Hc.
  apply forallb_forall. intros y Hy. apply in_seq in Hy.
  apply forallb_forall. intros w Hw. apply in_seq in Hw.
  specialize (Hv b c y w). 
  apply andb_true_iff. split; [apply Z.leb_le | apply Z.ltb_lt]; lia.
Qed.

Lemma mean_nonneg (n : nat) (s : R) : 0 < n -> (0 <= s)%R -> (0 <= s / INR n)%R.
Proof.
  intros Hn Hs. apply Rmult_le_pos; [exact Hs |].
  left. apply Rinv_0_lt_compat. apply lt_0_INR. exact Hn.
Qed.

(** C7. On a non-empty batch of images with intensities in [0, 255],
    [calc_likelihood] returns the batch mean of the per-image mean, over
    channels, rows and columns, of the cross-entropy between the logits of
    [forward] and the pixels, times log2(e); and this value is not
    negative. *)
Theorem likelihood_nonneg (c_in c_hidden : nat) (m : PixelCNN) (x : tensor4 Z)
    (B H W : nat) :
  well_formed c_in c_hidden m -> 1 <= c_hidden ->
  shape4 x = (B, c_in, H, W) -> 1 <= B -> 1 <= c_in -> 1 <= H -> 1 <= W ->
  valid_image x ->
  exists pred m',
    PixelCNN_forward m x = Ok (pred, m') /\
    calc_likelihood m x = Ok (likelihood_spec pred x, m') /\
    (0 <= likelihood_spec pred x)%R.
Proof.
  intros Hwf Hch Hx HB HC HH HW Hv.
  destruct (PixelCNN_forward_eq c_in c_hidden m x B H W Hwf Hx Hch HH HW) as [E S].
  exists (logits_out m x), (masked_model m).
  split; [exact E |].
  apply shape4_inv in Hx. destruct Hx as (xB & xC & xH & xW).
  apply shape5_inv in S. destruct S as (SB & SK & SC & SH & SW).
  assert (Hce : forall b c y w, b < B -> c < c_in -> y < H -> w < W ->
            (0 <= logsumexp 256 (fun k => dat5 (logits_out m x) b k c y w)
                  - dat5 (logits_out m x) b (Z.to_nat (dat x b c y w)) c y w)%R).
  { intros b c y w Hb Hc Hy Hw.
    pose proof (logsumexp_ge 256 (fun k => dat5 (logits_out m x) b k c y w)
                  (Z.to_nat (dat x b c y w))) as Hge.
    cbv beta in Hge.
    assert (Z.to_nat (dat x b c y w) < 256).
    { specialize (Hv b c y w). lia. }
    specialize (Hge H0). lra. }
  split.
  - unfold calc_likelihood. rewrite E. cbn [bind].
    unfold cross_entropy.
    rewrite SB, SK, SC, SH, SW, xB, xC, xH, xW, !Nat.eqb_refl.
    cbn [andb]. rewrite (in_bounds4_valid x Hv). cbn [bind].
    unfold likelihood_spec, mean_n, mean123. cbn [tB tC tH tW dat].
    rewrite xB, xC, xH, xW.
    rewrite sum_n_scal. f_equal. f_equal.
    match goal with
    | |- (sum_n ?n ?f * ?a / ?d)%R = (sum_n ?n ?g / ?d * ?a)%R =>
        replace (sum_n n f) with (sum_n n g); [unfold Rdiv; ring |]
    end.
    apply sum_n_ext. intros b _. f_equal.
    apply sum_n_ext. intros c _. apply sum_n_ext. intros y _.
    apply sum_n_ext. intros w _. ring.
  - unfold likelihood_spec. rewrite xB, xC, xH, xW.
    apply Rmult_le_pos; [| left; apply log2_e_pos].
    apply mean_nonneg; [lia |].
    apply sum_n_nonneg. intros b Hb.
    apply mean_nonneg; [nia |].
    apply sum_n_nonneg. intros c Hc.
    apply sum_n_nonneg. intros y Hy.
    apply sum_n_nonneg. intros w Hw.
    apply Hce; trivial.
Qed.

(** ** Sampling *)

Lemma softmax_valid (K : nat) (l : nat -> R) :
  0 < K ->
  (forall k, k < K -> (0 <= softmax K l k)%R) /\ (0 < sum_n K (softmax K l))%R.
Proof.
  intros HK. pose proof (sum_exp_pos K l HK) as Hpos. split.
  - intros k _. unfold softmax. left.
    apply Rdiv_lt_0_compat; [apply exp_pos | exact Hpos].
  - unfold softmax, Rdiv.
    rewrite (sum_n_scal K (fun k => exp (l k))).
    apply Rmult_lt_0_compat; [exact Hpos | apply Rinv_0_lt_compat, Hpos].
Qed.

Lemma apply_mask_idem_vconv (ci co : nat) (center : bool) (d : nat) (p : params) :
  apply_mask (apply_mask (vconv ci co center d p)) = apply_mask (vconv ci co center d p).
Proof.
  unfold apply_mask, vconv, set_weight. cbn [conv mask weight in_channels out_channels
    kernel_size dilation padding bias].
  rewrite mul_weight_idem; [reflexivity |].
  destruct center; unfold binary_mask, vmask;
    repeat (apply Forall_cons || apply Forall_nil);
    solve [left; reflexivity | right; reflexivity].
Qed.

Lemma apply_mask_idem_hconv (ci co : nat) (center : bool) (d : nat) (p : params) :
  apply_mask (apply_mask (hconv ci co center d p)) = apply_mask (hconv ci co center d p).
Proof.
  unfold apply_mask, hconv, set_weight. cbn [conv mask weight in_channels out_channels
    kernel_size dilation padding bias].
  rewrite mul_weight_idem; [reflexivity |].
  destruct center; unfold binary_mask, hmask;
    repeat (apply Forall_cons || apply Forall_nil);
    solve [left; reflexivity | right; reflexivity].
Qed.

Lemma masked_model_idem (c_in c_hidden : nat) (m : PixelCNN) :
  well_formed c_in c_hidden m -> masked_model (masked_model m) = masked_model m.
Proof.
  intros (_ & _ & (pv & Hv) & (ph & Hh) & Hl & _).
  unfold masked_model. cbn [hp_c_in hp_c_hidden conv_vstack conv_hstack conv_layers conv_out].
  rewrite Hv, Hh, apply_mask_idem_vconv, apply_mask_idem_hconv.
  f_equal. rewrite map_map. apply map_ext_in. intros g Hg.
  rewrite Forall_forall in Hl. destruct (Hl g Hg) as (d & p & ->).
  unfold masked_gated, gated.
  cbn [conv_vert conv_horiz conv_vert_to_horiz conv_horiz_1x1].
  rewrite apply_mask_idem_vconv, apply_mask_idem_hconv. reflexivity.
Qed.

(** *** The scan order *)

Lemma sorted_app {A : Type} (R : A -> A -> Prop) (l l' : list A) :
  StronglySorted R l -> StronglySorted R l' ->
  (forall x y, In x l -> In y l' -> R x y) -> StronglySorted R (l ++ l').
Proof.
  induction 1 as [| a l Hl IH Ha]; intros Hl' Hcross; simpl; [exact Hl' |].
  constructor.
  - apply IH; [exact Hl' |]. intros x y Hx Hy. apply Hcross; [right |]; assumption.
  - apply Forall_app. split; [exact Ha |].
    apply Forall_forall. intros y Hy. apply Hcross; [left; reflexivity | exact Hy].
Qed.

Lemma sorted_map {A B : Type} (RA : A -> A -> Prop) (R : B -> B -> Prop) (f : A -> B)
    (l : list A) :
  (forall a a', RA a a' -> R (f a) (f a')) ->
  StronglySorted RA l -> StronglySorted R (map f l).
Proof.
  intros Hf. induction 1 as [| a l Hl IH Ha]; simpl; constructor; [exact IH |].
  apply Forall_map. revert Ha. apply Forall_impl. intros a'. apply Hf.
Qed.

Lemma sorted_flat_map {A B : Type} (RA : A -> A -> Prop) (R : B -> B -> Prop)
    (F : A -> list B) (l : list A) :
  (forall a, StronglySorted R (F a)) ->
  (forall a a' x y, RA a a' -> In x (F a) -> In y (F a') -> R x y) ->
  StronglySorted RA l -> StronglySorted R (flat_map F l).
Proof.
  intros HF Hcross. induction 1 as [| a l Hl IH Ha]; simpl; [constructor |].
  apply sorted_app; [apply HF | exact IH |].
  intros x y Hx Hy. apply in_flat_map in Hy. destruct Hy as (a' & Ha' & Hy).
  rewrite Forall_forall in Ha. eapply Hcross; eauto.
Qed.

Lemma seq_sorted (a n : nat) : StronglySorted lt (seq a n).
Proof.
  revert a. induction n as [| n IH]; intros a; simpl; constructor; [apply IH |].
  apply Forall_forall. intros x Hx. apply in_seq in Hx. lia.
Qed.

Lemma scan_order_sorted (C H W : nat) : StronglySorted pos_lt (scan_order C H W).
Proof.
  unfold scan_order.
  apply sorted_flat_map with (RA := lt); [| | apply seq_sorted].
  - intros h. apply sorted_flat_map with (RA := lt); [| | apply seq_sorted].
    + intros w. apply sorted_map with (RA := lt); [| apply seq_sorted].
      intros c c' Hc. unfold pos_lt. lia.
    + intros w w' x y Hw Hx Hy.
      apply in_map_iff in Hx. destruct Hx as (c & <- & _).
      apply in_map_iff in Hy. destruct Hy as (c' & <- & _).
      unfold pos_lt. lia.
  - intros h h' x y Hh Hx Hy.
    apply in_flat_map in Hx. destruct Hx as (w & _ & Hx).
    apply in_map_iff in Hx. destruct Hx as (c & <- & _).
    apply in_flat_map in Hy. destruct Hy as (w' & _ & Hy).
    apply in_map_iff in Hy. destruct Hy as (c' & <- & _).
    unfold pos_lt. lia.
Qed.

Lemma ex_multinomial_ok : multinomial_ok ex_multinomial.
Proof.
  intros g rows classes probs Hp. unfold ex_multinomial. cbn [fst].
  split; [apply repeat_length |].
  destruct rows as [| rows]; [constructor |].
  destruct (Hp 0) as [_ Hsum]; [lia |].
  apply Forall_forall. intros v Hv. apply repeat_spec in Hv. subst v.
  destruct classes; [simpl in Hsum; lra | lia].
Qed.

Lemma foldM_invariant_split {A S : Type} (f : S -> A -> result S)
    (I : list A -> S -> Prop) (l : list A) (s : S) :
  (forall pre a post s, l = pre ++ a :: post -> I pre s ->
     exists s', f s a = Ok s' /\ I (pre ++ [a]) s') ->
  I [] s -> exists s', foldM f l s = Ok s' /\ I l s'.
Proof.
  intros Hstep.
  assert (G : forall post pre s, l = pre ++ post -> I pre s ->
            exists s', foldM f post s = Ok s' /\ I l s').
  { induction post as [| a post IH]; intros pre s0 Hl H0.
    - exists s0. rewrite app_nil_r in Hl. subst pre. simpl. auto.
    - destruct (Hstep pre a post s0 Hl H0) as (s1 & E1 & H1).
      destruct (IH (pre ++ [a]) s1) as (s2 & E2 & H2).
      + rewrite <- app_assoc. exact Hl.
      + exact H1.
      + exists s2. simpl. rewrite E1. simpl. auto. }
  intros H0. apply (G l [] s); auto.
Qed.

Lemma sorted_NoDup {A : Type} (R : A -> A -> Prop) (l : list A) :
  (forall x, ~ R x x) -> StronglySorted R l -> NoDup l.
Proof.
  intros Hirr. induction 1 as [| a l Hl IH Ha]; constructor; [| exact IH].
  intros Hin. rewrite Forall_forall in Ha. exact (Hirr a (Ha a Hin)).
Qed.

Lemma scan_order_NoDup (C H W : nat) : NoDup (scan_order C H W).
Proof.
  apply sorted_NoDup with (R := pos_lt); [| apply scan_order_sorted].
  intros [[h w] c]. unfold pos_lt. lia.
Qed.

Lemma NoDup_split_notin {A : Type} (pre post : list A) (a : A) :
  NoDup (pre ++ a :: post) -> ~ In a pre.
Proof.
  intros Hnd Hin. apply NoDup_remove_2 in Hnd. apply Hnd.
  apply in_or_app. left. exact Hin.
Qed.

Lemma all_filled_ext (img img0 : tensor4 Z) (c h w : nat) :
  tB img = tB img0 -> (forall b, dat img b c h w = dat img0 b c h w) ->
  all_filled img c h w = all_filled img0 c h w.
Proof.
  intros HB Hd. unfold all_filled. rewrite HB.
  induction (seq 0 (tB img0)) as [| b l IH]; [reflexivity |].
  cbn [forallb]. rewrite Hd, IH. reflexivity.
Qed.

Section Sampling.

Variable RNG : Type.
Variable multinomial : RNG -> nat -> nat -> (nat -> nat -> R) -> list Z * RNG.
Hypothesis multinomial_spec : multinomial_ok multinomial.

Variables c_in c_hidden : nat.
Hypothesis c_hidden_pos : 1 <= c_hidden.

(** One iteration of the loop body, at a cell of the image. *)
Lemma sample_step_spec (m : PixelCNN) (g : RNG) (img : tensor4 Z) (h w c : nat) :
  well_formed c_in c_hidden m -> tC img = c_in ->
  h < tH img -> w < tW img -> c < tC img ->
  (all_filled img c h w = true /\
   sample_step multinomial (m, g, img) h w c = Ok (m, g, img)) \/
  (all_filled img c h w = false /\
   let draw := multinomial g (tB img) 256 (cell_probs m img h w c) in
   length (fst draw) = tB img /\
   Forall (fun v => (0 <= v < 256)%Z) (fst draw) /\
   sample_step multinomial (m, g, img) h w c
   = Ok (masked_model m, snd draw, assign_out img c h w (fst draw))).
Proof.
  intros Hwf HC Hh Hw Hc.
  unfold sample_step.
  rewrite (proj2 (Nat.ltb_lt _ _) Hc), (proj2 (Nat.ltb_lt _ _) Hh),
          (proj2 (Nat.ltb_lt _ _) Hw). cbn [andb].
  destruct (all_filled img c h w) eqn:Hall; [left; auto | right].
  split; [reflexivity |].
  assert (S : shape4 (crop_rows (h + 1) img) = (tB img, c_in, h + 1, tW img)).
  { unfold shape4, crop_rows. cbn [tB tC tH tW]. rewrite HC.
    replace (Nat.min (h + 1) (tH img)) with (h + 1) by lia. reflexivity. }
  destruct (PixelCNN_forward_eq c_in c_hidden m _ _ _ _ Hwf S) as [E S5]; try lia.
  apply shape5_inv in S5. destruct S5 as (SB & SK & SC & SH & SW).
  rewrite E. cbn [bind]. rewrite SB, SK, SC, SH, SW.
  rewrite (proj2 (Nat.ltb_lt c c_in)) by lia.
  rewrite (proj2 (Nat.ltb_lt h (h + 1))) by lia.
  rewrite (proj2 (Nat.ltb_lt _ _) Hw). cbn [andb].
  fold (cell_probs m img h w c).
  cbv zeta.
  destruct (multinomial_spec g (tB img) 256 (cell_probs m img h w c)) as [Hlen Hran].
  { intros b _. unfold cell_probs. apply softmax_valid. lia. }
  destruct (multinomial g (tB img) 256 (cell_probs m img h w c)) as [vals g'] eqn:Hd.
  cbn [fst snd] in *.
  split; [exact Hlen |]. split; [exact Hran |].
  unfold assign_cell. rewrite Hlen, Nat.eqb_refl. reflexivity.
Qed.

(** *** The loop nest as one loop over the scan order *)

Lemma foldM_ext {A S : Type} (f f' : S -> A -> result S) (l : list A) (s : S) :
  (forall s a, f s a = f' s a) -> foldM f l s = foldM f' l s.
Proof.
  intros H. revert s. induction l as [| a l IH]; intros s; simpl; [reflexivity |].
  rewrite H. destruct (f' s a); simpl; auto.
Qed.

Lemma foldM_app {A S : Type} (f : S -> A -> result S) (l l' : list A) (s : S) :
  foldM f (l ++ l') s = bind (foldM f l s) (foldM f l').
Proof.
  revert s. induction l as [| a l IH]; intros s; simpl; [reflexivity |].
  destruct (f s a); simpl; auto.
Qed.

Lemma foldM_map {A B S : Type} (f : S -> B -> result S) (g : A -> B) (l : list A) (s : S) :
  foldM f (map g l) s = foldM (fun st a => f st (g a)) l s.
Proof.
  revert s. induction l as [| a l IH]; intros s; simpl; [reflexivity |].
  destruct (f s (g a)); simpl; auto.
Qed.

Lemma foldM_flat_map {A B S : Type} (f : S -> B -> result S) (F : A -> list B)
    (l : list A) (s : S) :
  foldM f (flat_map F l) s = foldM (fun st a => foldM f (F a) st) l s.
Proof.
  revert s. induction l as [| a l IH]; intros s; simpl; [reflexivity |].
  rewrite foldM_app. destruct (foldM f (F a) s); simpl; auto.
Qed.

Lemma sample_scan (m : PixelCNN) (B C H W : nat) (g : RNG) (img : option (tensor4 Z)) :
  sample multinomial m (B, C, H, W) g img
  = foldM (fun st p => let '(h, w, c) := p in sample_step multinomial st h w c)
          (scan_order C H W) (m, g, seed_or_empty (B, C, H, W) img).
Proof.
  unfold sample, scan_order, seed_or_empty.
  rewrite foldM_flat_map. apply foldM_ext. intros st h.
  rewrite foldM_flat_map. apply foldM_ext. intros st' w.
  rewrite foldM_map. reflexivity.
Qed.

Lemma In_scan_order (C H W h w c : nat) :
  In (h, w, c) (scan_order C H W) <-> h < H /\ w < W /\ c < C.
Proof.
  unfold scan_order. rewrite in_flat_map. split.
  - intros (h' & Hh & Hin). rewrite in_flat_map in Hin.
    destruct Hin as (w' & Hw & Hin). rewrite in_map_iff in Hin.
    destruct Hin as (c' & [= -> -> ->] & Hc).
    rewrite in_seq in Hh, Hw, Hc. lia.
  - intros (Hh & Hw & Hc). exists h. split; [apply in_seq; lia |].
    rewrite in_flat_map. exists w. split; [apply in_seq; lia |].
    rewrite in_map_iff. exists c. split; [reflexivity | apply in_seq; lia].
Qed.

Lemma foldM_invariant {A S : Type} (f : S -> A -> result S) (I : list A -> S -> Prop)
    (l : list A) (s : S) :
  (forall pre a s, In a l -> I pre s -> exists s', f s a = Ok s' /\ I (pre ++ [a]) s') ->
  I [] s -> exists s', foldM f l s = Ok s' /\ I l s'.
Proof.
  intros Hstep.
  assert (G : forall post pre s, (forall a, In a post -> In a l) -> I pre s ->
            exists s', foldM f post s = Ok s' /\ I (pre ++ post) s').
  { induction post as [| a post IH]; intros pre s0 Hsub H0.
    - exists s0. rewrite app_nil_r. simpl. auto.
    - destruct (Hstep pre a s0 (Hsub a (or_introl eq_refl)) H0) as (s1 & E1 & H1).
      destruct (IH (pre ++ [a]) s1) as (s2 & E2 & H2).
      + intros a' Ha'. apply Hsub. right. exact Ha'.
      + exact H1.
      + exists s2. simpl. rewrite E1. simpl. rewrite <- app_assoc in H2. auto. }
  intros H0. apply (G l [] s); auto.
Qed.

Lemma all_filled_iff (img : tensor4 Z) (c h w : nat) :
  all_filled img c h w = true <->
  forall b, b < tB img -> dat img b c h w <> (-1)%Z.
Proof.
  unfold all_filled. rewrite forallb_forall. split.
  - intros H b Hb. specialize (H b). rewrite in_seq in H.
    assert (E : negb (dat img b c h w =? -1)%Z = true) by (apply H; lia).
    apply negb_true_iff, Z.eqb_neq in E. exact E.
  - intros H b Hb. apply in_seq in Hb.
    apply negb_true_iff, Z.eqb_neq, H. lia.
Qed.

Lemma assign_out_dat (img : tensor4 Z) (c h w : nat) (vals : list Z) (b c' y x : nat) :
  dat (assign_out img c h w vals) b c' y x
  = if (c' =? c) && (y =? h) && (x =? w) then nth b vals 0%Z else dat img b c' y x.
Proof. reflexivity. Qed.

Lemma same_cell (c' y x c h w : nat) :
  (c' =? c) && (y =? h) && (x =? w) = true <-> c' = c /\ y = h /\ x = w.
Proof. rewrite !andb_true_iff, !Nat.eqb_eq. tauto. Qed.

Lemma drawn_in_range (vals : list Z) (K : Z) (b : nat) :
  Forall (fun v => (0 <= v < K)%Z) vals -> b < length vals ->
  (0 <= nth b vals 0 < K)%Z.
Proof.
  intros HF Hb. rewrite Forall_forall in HF. apply HF, nth_In, Hb.
Qed.

(** What a call of [sample] returns, for a seed of the requested shape
    whose channel count is the model's. *)
Lemma sample_spec (m0 : PixelCNN) (B H W : nat) (g0 : RNG) (seed : option (tensor4 Z)) :
  well_formed c_in c_hidden m0 ->
  shape4 (seed_or_empty (B, c_in, H, W) seed) = (B, c_in, H, W) ->
  exists m' g' img',
    sample multinomial m0 (B, c_in, H, W) g0 seed = Ok (m', g', img') /\
    (m' = m0 \/ m' = masked_model m0) /\
    shape4 img' = (B, c_in, H, W) /\
    (forall b c y x, b < B -> c < c_in -> y < H -> x < W ->
       dat img' b c y x <> (-1)%Z /\
       (dat img' b c y x = dat (seed_or_empty (B, c_in, H, W) seed) b c y x \/
        (0 <= dat img' b c y x < 256)%Z)) /\
    (forall c y x, c < c_in -> y < H -> x < W ->
       (forall b, b < B -> dat (seed_or_empty (B, c_in, H, W) seed) b c y x <> (-1)%Z) ->
       forall b, b < B ->
         dat img' b c y x = dat (seed_or_empty (B, c_in, H, W) seed) b c y x).
Proof.
  intros Hwf Hshape. set (img0 := seed_or_empty (B, c_in, H, W) seed) in *.
  rewrite sample_scan. fold img0.
  destruct (foldM_invariant
    (fun st p => let '(h, w, c) := p in sample_step multinomial st h w c)
    (fun visited (st : sample_state RNG) =>
       let '(m', _, img') := st in
       (m' = m0 \/ m' = masked_model m0) /\
       shape4 img' = (B, c_in, H, W) /\
       (forall b c y x, b < B -> c < c_in -> y < H -> x < W ->
          dat img' b c y x = dat img0 b c y x \/ (0 <= dat img' b c y x < 256)%Z) /\
       (forall h w c, In (h, w, c) visited ->
          forall b, b < B -> dat img' b c h w <> (-1)%Z) /\
       (forall c y x, c < c_in -> y < H -> x < W ->
          (forall b, b < B -> dat img0 b c y x <> (-1)%Z) ->
          forall b, b < B -> dat img' b c y x = dat img0 b c y x))
    (scan_order c_in H W) (m0, g0, img0)) as ([[m' g'] img'] & E & Inv).
  - intros pre [[h w] c] [[m1 g1] img1] Hin (Hm & Hs & Hr & Hv & Hk).
    apply In_scan_order in Hin. destruct Hin as (Hh & Hw & Hc).
    assert (Hwf1 : well_formed c_in c_hidden m1).
    { destruct Hm as [-> | ->]; [exact Hwf | apply masked_model_well_formed, Hwf]. }
    pose proof (shape4_inv _ _ _ _ _ Hs) as (SB & SC & SH & SW).
    destruct (sample_step_spec m1 g1 img1 h w c Hwf1 SC) as
      [[Hall Est] | (Hall & Hlen & Hran & Est)]; try lia.
    + exists (m1, g1, img1). split; [exact Est |].
      repeat split; trivial.
      intros h1 w1 c1 Hin1 b Hb. apply in_app_or in Hin1.
      destruct Hin1 as [Hin1 | [[= <- <- <-] | []]]; [eauto |].
      rewrite all_filled_iff in Hall. apply Hall. lia.
    + cbv zeta in Hlen, Hran, Est.
      set (draw := multinomial g1 (tB img1) 256 (cell_probs m1 img1 h w c)) in *.
      exists (masked_model m1, snd draw, assign_out img1 c h w (fst draw)).
      split; [exact Est |].
      split; [| split; [| split; [| split]]].
      * right. destruct Hm as [-> | ->]; [reflexivity |].
        apply (masked_model_idem c_in c_hidden), Hwf.
      * exact Hs.
      * intros b c1 y x Hb Hc1 Hy Hx. rewrite assign_out_dat.
        destruct ((c1 =? c) && (y =? h) && (x =? w)); [right | auto].
        apply drawn_in_range; [exact Hran | lia].
      * intros h1 w1 c1 Hin1 b Hb. rewrite assign_out_dat.
        destruct ((c1 =? c) && (h1 =? h) && (w1 =? w)) eqn:Ecell.
        -- pose proof (drawn_in_range (fst draw) 256 b Hran). lia.
        -- apply in_app_or in Hin1.
           destruct Hin1 as [Hin1 | [[= <- <- <-] | []]]; [eauto |].
           rewrite !Nat.eqb_refl in Ecell. discriminate.
      * intros c1 y x Hc1 Hy Hx Hfilled b Hb. rewrite assign_out_dat.
        destruct ((c1 =? c) && (y =? h) && (x =? w)) eqn:Ecell; [| auto].
        apply same_cell in Ecell. destruct Ecell as (-> & -> & ->).
        exfalso.
        assert (Hall' : all_filled img1 c h w = true).
        { apply all_filled_iff. intros b' Hb'.
          rewrite (Hk c h w Hc1 Hy Hx Hfilled b') by lia. apply Hfilled. lia. }
        congruence.
  - repeat split; auto.
  - destruct Inv as (Hm & Hs & Hr & Hv & Hk).
    exists m', g', img'. split; [exact E |].
    repeat split; auto.
    apply (Hv y x c); [apply In_scan_order; auto | assumption].
Qed.

Lemma all_filled_false_iff (img : tensor4 Z) (c h w : nat) :
  all_filled img c h w = false <->
  exists b, b < tB img /\ dat img b c h w = (-1)%Z.
Proof.
  split.
  - unfold all_filled. intros H.
    assert (G : forall l, forallb (fun b => negb (dat img b c h w =? -1)%Z) l = false ->
              exists b, In b l /\ dat img b c h w = (-1)%Z).
    { induction l as [| b l IH]; simpl; [discriminate |].
      destruct (dat img b c h w =? -1)%Z eqn:E; simpl.
      - intros _. exists b. split; [left; reflexivity | apply Z.eqb_eq, E].
      - intros Hl. destruct (IH Hl) as (b' & Hb' & Hd). exists b'. auto. }
    destruct (G _ H) as (b & Hb & Hd). apply in_seq in Hb. exists b. split; [lia | exact Hd].
  - intros (b & Hb & Hd).
    destruct (all_filled img c h w) eqn:E; [| reflexivity].
    rewrite all_filled_iff in E. specialize (E b Hb). contradiction.
Qed.

(** The model that [sample] leaves: the masked model as soon as some
    requested cell holds -1 in some batch element of the seed, the model
    as given when there is no such cell. *)
Lemma sample_model_spec (m0 : PixelCNN) (B H W : nat) (g0 : RNG) (seed : option (tensor4 Z))
    (m' : PixelCNN) (g' : RNG) (img' : tensor4 Z) :
  well_formed c_in c_hidden m0 ->
  shape4 (seed_or_empty (B, c_in, H, W) seed) = (B, c_in, H, W) ->
  sample multinomial m0 (B, c_in, H, W) g0 seed = Ok (m', g', img') ->
  ((exists b c y x, b < B /\ c < c_in /\ y < H /\ x < W /\
      dat (seed_or_empty (B, c_in, H, W) seed) b c y x = (-1)%Z) ->
   m' = masked_model m0) /\
  ((forall b c y x, b < B -> c < c_in -> y < H -> x < W ->
      dat (seed_or_empty (B, c_in, H, W) seed) b c y x <> (-1)%Z) ->
   m' = m0).
Proof.
  intros Hwf Hshape. set (img0 := seed_or_empty (B, c_in, H, W) seed) in *.
  set (unfilled := fun p : nat * nat * nat =>
                     let '(h, w, c) := p in negb (all_filled img0 c h w)).
  rewrite sample_scan. fold img0.
  pose proof (shape4_inv _ _ _ _ _ Hshape) as (S0B & S0C & S0H & S0W).
  destruct (foldM_invariant_split
    (fun st p => let '(h, w, c) := p in sample_step multinomial st h w c)
    (fun visited (st : sample_state RNG) =>
       let '(m1, _, img1) := st in
       m1 = (if existsb unfilled visited then masked_model m0 else m0) /\
       shape4 img1 = (B, c_in, H, W) /\
       (forall h w c, ~ In (h, w, c) visited ->
          forall b, dat img1 b c h w = dat img0 b c h w))
    (scan_order c_in H W) (m0, g0, img0)) as ([[m2 g2] img2] & E & Hm & _).
  - intros pre [[h w] c] post [[m1 g1] img1] Hl (Hm1 & Hs & Hun).
    assert (Hin : In (h, w, c) (scan_order c_in H W)).
    { rewrite Hl. apply in_or_app. right. left. reflexivity. }
    apply In_scan_order in Hin. destruct Hin as (Hh & Hw & Hc).
    assert (Hnot : ~ In (h, w, c) pre).
    { apply NoDup_split_notin with (post := post). rewrite <- Hl.
      apply scan_order_NoDup. }
    pose proof (shape4_inv _ _ _ _ _ Hs) as (SB & SC & SH & SW).
    assert (Hsame : all_filled img1 c h w = all_filled img0 c h w).
    { apply all_filled_ext; [congruence | intros b; apply Hun; exact Hnot]. }
    assert (Hwf1 : well_formed c_in c_hidden m1).
    { rewrite Hm1. destruct (existsb unfilled pre);
        [apply masked_model_well_formed, Hwf | exact Hwf]. }
    destruct (sample_step_spec m1 g1 img1 h w c Hwf1 SC) as
      [[Hall Est] | (Hall & Hlen & Hran & Est)]; try lia.
    + exists (m1, g1, img1). split; [exact Est |].
      split; [| split; [exact Hs |]].
      * rewrite existsb_app. cbn [existsb unfilled].
        rewrite <- Hsame, Hall. cbn [negb orb]. rewrite orb_false_r. exact Hm1.
      * intros h1 w1 c1 Hn1 b. apply Hun. intros Hc1. apply Hn1.
        apply in_or_app. left. exact Hc1.
    + cbv zeta in Hlen, Hran, Est.
      set (draw := multinomial g1 (tB img1) 256 (cell_probs m1 img1 h w c)) in *.
      exists (masked_model m1, snd draw, assign_out img1 c h w (fst draw)).
      split; [exact Est |].
      split; [| split; [exact Hs |]].
      * rewrite existsb_app. cbn [existsb unfilled].
        rewrite <- Hsame, Hall. cbn [negb orb]. rewrite orb_true_r.
        rewrite Hm1. destruct (existsb unfilled pre); [| reflexivity].
        apply (masked_model_idem c_in c_hidden), Hwf.
      * intros h1 w1 c1 Hn1 b. rewrite assign_out_dat.
        destruct ((c1 =? c) && (h1 =? h) && (w1 =? w)) eqn:Ecell.
        -- apply same_cell in Ecell. destruct Ecell as (-> & -> & ->).
           exfalso. apply Hn1. apply in_or_app. right. left. reflexivity.
        -- apply Hun. intros Hc1. apply Hn1. apply in_or_app. left. exact Hc1.
  - split; [reflexivity |]. split; [exact Hshape |]. auto.
  - rewrite E. intros [= <- _ _]. split.
    + intros (b & c & y & x & Hb & Hc & Hy & Hx & Hd).
      assert (Hex : existsb unfilled (scan_order c_in H W) = true).
      { apply existsb_exists. exists (y, x, c).
        split; [apply In_scan_order; auto |].
        cbn [unfilled]. apply negb_true_iff, all_filled_false_iff.
        exists b. split; [lia | exact Hd]. }
      rewrite Hm, Hex. reflexivity.
    + intros Hfilled.
      destruct (existsb unfilled (scan_order c_in H W)) eqn:Hex; [| exact Hm].
      apply existsb_exists in Hex. destruct Hex as ([[y x] c] & Hin & Hu).
      apply In_scan_order in Hin. destruct Hin as (Hy & Hx & Hc).
      cbn [unfilled] in Hu. apply negb_true_iff, all_filled_false_iff in Hu.
      destruct Hu as (b & Hb & Hd).
      exfalso. apply (Hfilled b c y x); trivial. lia.
Qed.

(** C5. [sample] is one loop over the cells in the order of the three
    nested loops (rows, then columns, then channels), which is the
    increasing enumeration of all cells in raster-then-channel order.  At
    a cell, the step leaves image, generator and model as they are when
    every batch element holds a value other than -1 there; when some
    batch element holds -1, it draws one value per batch element and
    writes it at that cell for every batch element, leaving the other
    cells as they are. *)
Theorem sample_order_and_skip (m : PixelCNN) (B C H W : nat) (g : RNG)
    (seed : option (tensor4 Z)) :
  sample multinomial m (B, C, H, W) g seed
  = foldM (fun st p => let '(h, w, c) := p in sample_step multinomial st h w c)
          (scan_order C H W) (m, g, seed_or_empty (B, C, H, W) seed) /\
  StronglySorted pos_lt (scan_order C H W) /\
  (forall h w c, In (h, w, c) (scan_order C H W) <-> h < H /\ w < W /\ c < C) /\
  (forall m1 g1 img h w c,
     well_formed c_in c_hidden m1 -> tC img = c_in -> in_image img (h, w, c) ->
     ((forall b, b < tB img -> dat img b c h w <> (-1)%Z) ->
      sample_step multinomial (m1, g1, img) h w c = Ok (m1, g1, img)) /\
     ((exists b, b < tB img /\ dat img b c h w = (-1)%Z) ->
      let draw := multinomial g1 (tB img) 256 (cell_probs m1 img h w c) in
      exists m' img',
        sample_step multinomial (m1, g1, img) h w c = Ok (m', snd draw, img') /\
        shape4 img' = shape4 img /\
        (forall b, b < tB img ->
           dat img' b c h w = nth b (fst draw) 0%Z /\
           (0 <= nth b (fst draw) 0 <= 255)%Z) /\
        (forall b c' y x, (c', y, x) <> (c, h, w) ->
           dat img' b c' y x = dat img b c' y x))).
Proof.
  split; [apply sample_scan |].
  split; [apply scan_order_sorted |].
  split; [intros; apply In_scan_order |].
  intros m1 g1 img h w c Hwf HC (Hh & Hw & Hc).
  destruct (sample_step_spec m1 g1 img h w c Hwf HC Hh Hw Hc) as
    [[Hall Est] | (Hall & Hlen & Hran & Est)].
  - split; [intros _; exact Est |].
    intros Hex. apply all_filled_false_iff in Hex. congruence.
  - split.
    + intros Hfilled. apply all_filled_iff in Hfilled. congruence.
    + intros _. cbv zeta in *.
      exists (masked_model m1),
        (assign_out img c h w (fst (multinomial g1 (tB img) 256 (cell_probs m1 img h w c)))).
      split; [exact Est |]. split; [reflexivity |]. split.
      * intros b Hb. rewrite assign_out_dat, !Nat.eqb_refl. cbn [andb].
        split; [reflexivity |].
        pose proof (drawn_in_range _ 256 b Hran). lia.
      * intros b c' y x Hne. rewrite assign_out_dat.
        destruct ((c' =? c) && (y =? h) && (x =? w)) eqn:E; [| reflexivity].
        apply same_cell in E. destruct E as (-> & -> & ->). contradiction.
Qed.

(** C6. For a requested shape whose channel count is the model's, and
    a seed that is absent or has the requested shape and holds only -1
    and intensities in [0, 255], [sample] returns an image of the
    requested shape whose entries all lie in [0, 255]. *)
Theorem sample_fills_image (m : PixelCNN) (B H W : nat) (g : RNG)
    (seed : option (tensor4 Z)) :
  well_formed c_in c_hidden m ->
  match seed with
  | None => True
  | Some s => shape4 s = (B, c_in, H, W) /\ valid_seed s
  end ->
  exists m' g' img',
    sample multinomial m (B, c_in, H, W) g seed = Ok (m', g', img') /\
    shape4 img' = (B, c_in, H, W) /\
    forall b c y x, b < B -> c < c_in -> y < H -> x < W ->
      (0 <= dat img' b c y x <= 255)%Z.
Proof.
  intros Hwf Hseed.
  destruct (sample_spec m B H W g seed Hwf) as (m' & g' & img' & E & _ & Hs & Hr & _).
  { destruct seed as [s |]; [apply Hseed | reflexivity]. }
  exists m', g', img'. split; [exact E |]. split; [exact Hs |].
  intros b c y x Hb Hc Hy Hx.
  destruct (Hr b c y x Hb Hc Hy Hx) as [Hne [Heq | Hran]]; [| lia].
  rewrite Heq in *. destruct seed as [s |]; simpl in *.
  - destruct Hseed as [Hshape Hvalid].
    apply shape4_inv in Hshape. destruct Hshape as (SB & SC & SH & SW).
    destruct (Hvalid b c y x); lia.
  - contradiction.
Qed.

(** C2, amended. A masked convolution whose mask has the dimensions of
    its kernel convolves with the element-wise product of stored weight
    and mask, and that product is its stored weight after the call.  For
    a model with at least one image channel, [forward] and
    [calc_likelihood] return with the model in which every masked
    convolution holds that product and nothing else has changed;
    [sample] returns with that model when some requested cell holds -1
    in some batch element of the seed, and with the model as given when
    no requested cell does. *)
Theorem masking_in_place (m : PixelCNN) (B H W : nat) :
  well_formed c_in c_hidden m -> 1 <= c_in -> 1 <= H -> 1 <= W ->
  (forall mc x y mc',
     expand_mask (kernel_size (conv mc)) (mask mc) = Ok (mask mc) ->
     MaskedConvolution_forward mc x = Ok (y, mc') ->
     conv2d (set_weight (conv mc) (mul_weight (weight (conv mc)) (mask mc))) x = Ok y /\
     weight (conv mc') = mul_weight (weight (conv mc)) (mask mc) /\
     mc' = apply_mask mc) /\
  (forall x, shape4 x = (B, c_in, H, W) ->
     exists l, PixelCNN_forward m x = Ok (l, masked_model m)) /\
  (forall x, shape4 x = (B, c_in, H, W) -> 1 <= B -> valid_image x ->
     exists v, calc_likelihood m x = Ok (v, masked_model m)) /\
  (forall g seed, shape4 (seed_or_empty (B, c_in, H, W) seed) = (B, c_in, H, W) ->
     exists m' g' img',
       sample multinomial m (B, c_in, H, W) g seed = Ok (m', g', img') /\
       ((exists b c y x, b < B /\ c < c_in /\ y < H /\ x < W /\
           dat (seed_or_empty (B, c_in, H, W) seed) b c y x = (-1)%Z) ->
        m' = masked_model m) /\
       ((forall b c y x, b < B -> c < c_in -> y < H -> x < W ->
           dat (seed_or_empty (B, c_in, H, W) seed) b c y x <> (-1)%Z) ->
        m' = m)).
Proof.
  intros Hwf _ H1 W1. split; [| split; [| split]].
  - intros mc x y mc' Hfit Hfw.
    destruct (MaskedConvolution_forward_inv _ _ _ _ Hfw) as (m' & Hexp & -> & Hy).
    rewrite Hfit in Hexp. injection Hexp as <-.
    split; [exact Hy |]. split; reflexivity.
  - intros x Hx.
    destruct (PixelCNN_forward_eq c_in c_hidden m x B H W Hwf Hx) as [E _]; trivial.
    eauto.
  - intros x Hx _ Hv.
    destruct (PixelCNN_forward_eq c_in c_hidden m x B H W Hwf Hx) as [E S]; trivial.
    apply shape4_inv in Hx. destruct Hx as (xB & xC & xH & xW).
    apply shape5_inv in S. destruct S as (SB & SK & SC & SH & SW).
    unfold calc_likelihood. rewrite E. cbn [bind]. unfold cross_entropy.
    rewrite SB, SK, SC, SH, SW, xB, xC, xH, xW, !Nat.eqb_refl.
    cbn [andb]. rewrite (in_bounds4_valid x Hv). cbn [bind]. eauto.
  - intros g seed Hs.
    destruct (sample_spec m B H W g seed Hwf Hs) as (m' & g' & img' & E & _).
    exists m', g', img'. split; [exact E |].
    exact (sample_model_spec m B H W g seed m' g' img' Hwf Hs E).
Qed.

(** C8, amended. Neither [forward] nor [sample] validates pixel values.
    On every image that has the model's channel count, at least one
    channel, one row and one column, whatever its intensities, [forward]
    returns the
    logits computed from the intensities rescaled by v / 255 * 2 - 1; for
    every seed of the requested shape, whatever its values, [sample]
    returns an image, in which no -1 is left and every cell that held a
    value other than -1 in every batch element is as in the seed. *)
Theorem pixel_values_unchecked (m : PixelCNN) (B H W : nat) :
  well_formed c_in c_hidden m ->
  (forall x, shape4 x = (B, c_in, H, W) -> 1 <= c_in -> 1 <= H -> 1 <= W ->
     exists m', PixelCNN_forward m x = Ok (logits_out m x, m')) /\
  (forall g s, shape4 s = (B, c_in, H, W) ->
     exists m' g' img',
       sample multinomial m (B, c_in, H, W) g (Some s) = Ok (m', g', img') /\
       forall c y x, c < c_in -> y < H -> x < W ->
         (forall b, b < B -> dat img' b c y x <> (-1)%Z) /\
         ((forall b, b < B -> dat s b c y x <> (-1)%Z) ->
          forall b, b < B -> dat img' b c y x = dat s b c y x)).
Proof.
  intros Hwf. split.
  - intros x Hx _ H1 W1.
    destruct (PixelCNN_forward_eq c_in c_hidden m x B H W Hwf Hx) as [E _]; trivial.
    eauto.
  - intros g s Hs.
    destruct (sample_spec m B H W g (Some s) Hwf Hs)
      as (m' & g' & img' & E & _ & _ & Hr & Hk).
    exists m', g', img'. split; [exact E |].
    intros c y x Hc Hy Hx. split.
    + intros b Hb. apply (Hr b c y x); trivial.
    + intros Hfilled b Hb. apply (Hk c y x); trivial.
Qed.

End Sampling.

(** ** Instances on the concrete model *)

Lemma ex_img1_valid : valid_image ex_img1.
Proof. intros b c y w _ _ _ _. simpl. lia. Qed.

Lemma likelihood_nonneg_witness :
  exists pred m',
    PixelCNN_forward ex_model ex_img1 = Ok (pred, m') /\
    calc_likelihood ex_model ex_img1 = Ok (likelihood_spec pred ex_img1, m') /\
    (0 <= likelihood_spec pred ex_img1)%R.
Proof.
  apply (likelihood_nonneg 1 1 ex_model ex_img1 1 2 2).
  - apply model_well_formed.
  - lia.
  - reflexivity.
  - lia.
  - lia.
  - lia.
  - lia.
  - exact ex_img1_valid.
Defined.

Lemma sample_order_and_skip_witness :
  multinomial_ok ex_multinomial /\
  StronglySorted pos_lt (scan_order 1 2 2) /\
  forall h w c, In (h, w, c) (scan_order 1 2 2) <-> h < 2 /\ w < 2 /\ c < 1.
Proof.
  split; [exact ex_multinomial_ok |].
  destruct (sample_order_and_skip nat ex_multinomial ex_multinomial_ok
              1 1 (le_n 1) ex_model 1 1 2 2 0 None) as (_ & Hsorted & Hall & _).
  split; [exact Hsorted | exact Hall].
Defined.

Lemma sample_fills_image_witness :
  exists m' g' img',
    sample ex_multinomial ex_model (1, 1, 2, 2) 0 None = Ok (m', g', img') /\
    shape4 img' = (1, 1, 2, 2) /\
    forall b c y x, b < 1 -> c < 1 -> y < 2 -> x < 2 ->
      (0 <= dat img' b c y x <= 255)%Z.
Proof.
  apply (sample_fills_image nat ex_multinomial ex_multinomial_ok 1 1 (le_n 1)
           ex_model 1 2 2 0 None).
  - apply model_well_formed.
  - exact I.
Defined.

Lemma masking_in_place_witness :
  (exists l, PixelCNN_forward ex_model ex_img1 = Ok (l, masked_model ex_model)) /\
  (exists g' img',
     sample ex_multinomial ex_model (1, 1, 2, 2) 0 None
     = Ok (masked_model ex_model, g', img')) /\
  (exists g' img',
     sample ex_multinomial ex_model (1, 1, 2, 2) 0 (Some ex_img1) = Ok (ex_model, g', img')).
Proof.
  assert (H12 : 1 <= 2) by lia.
  destruct (masking_in_place nat ex_multinomial ex_multinomial_ok
              1 1 (le_n 1) ex_model 1 2 2
              (model_well_formed 1 1 ex_params) (le_n 1) H12 H12)
    as (_ & Hfw & _ & Hsample).
  split; [exact (Hfw ex_img1 eq_refl) |]. split.
  - destruct (Hsample 0 None eq_refl) as (m' & g' & img' & E & Hmasked & _).
    exists g', img'. rewrite E. f_equal. f_equal. f_equal.
    apply Hmasked. exists 0, 0, 0, 0. simpl. repeat split; lia.
  - destruct (Hsample 0 (Some ex_img1) eq_refl) as (m' & g' & img' & E & _ & Hgiven).
    exists g', img'. rewrite E. f_equal. f_equal. f_equal.
    apply Hgiven. intros b c y x _ _ _ _. simpl. discriminate.
Defined.

Lemma pixel_values_unchecked_witness :
  exists m', PixelCNN_forward ex_model ex_img_bad
             = Ok (logits_out ex_model ex_img_bad, m').
Proof.
  exact (proj1 (pixel_values_unchecked nat ex_multinomial ex_multinomial_ok
                  1 1 (le_n 1) ex_model 1 1 1 (model_well_formed 1 1 ex_params))
           ex_img_bad eq_refl (le_n 1) (le_n 1) (le_n 1)).
Defined.

(** C8, as stated, fails: an image with intensity 300 is taken by
    [forward], which returns logits, and a seed with value 300 is taken
    by [sample], which returns it as it is. *)
Lemma invalid_pixel_not_rejected :
  (255 < dat ex_img_bad 0 0 0 0)%Z /\
  (exists l m', PixelCNN_forward ex_model ex_img_bad = Ok (l, m')) /\
  sample ex_multinomial ex_model (1, 1, 1, 1) 0 (Some ex_img_bad)
  = Ok (ex_model, 0, ex_img_bad).
Proof.
  split; [simpl; lia |]. split.
  - destruct (PixelCNN_forward_eq 1 1 ex_model ex_img_bad 1 1 1) as [E _];
      try apply model_well_formed; try reflexivity; try lia.
    eauto.
  - reflexivity.
Qed.

(** * Further properties *)

(** ** Closed forms of the masks *)

Lemma firstn_repeat_min {A : Type} (x : A) (n k : nat) :
  firstn n (repeat x k) = repeat x (Nat.min n k).
Proof.
  revert k. induction n as [| n IH]; intros [| k]; simpl; try reflexivity.
  rewrite IH. reflexivity.
Qed.

Lemma skipn_repeat_sub {A : Type} (x : A) (n k : nat) :
  skipn n (repeat x k) = repeat x (k - n).
Proof.
  revert k. induction n as [| n IH]; intros [| k]; simpl; try reflexivity.
  apply IH.
Qed.

Lemma assign_from_repeat {A : Type} (f : A -> A) (x : A) (r k : nat) :
  firstn r (repeat x k) ++ map f (skipn r (repeat x k))
  = repeat x (Nat.min r k) ++ repeat (f x) (k - r).
Proof. rewrite firstn_repeat_min, skipn_repeat_sub, map_repeat. reflexivity. Qed.

Lemma assign_at_repeat {A : Type} (f : A -> A) (x y : A) (a k : nat) :
  a < k -> f x = y ->
  let M := repeat x (a + 1) ++ repeat y (k - (a + 1)) in
  firstn a M ++ map f (firstn 1 (skipn a M)) ++ skipn (S a) M
  = repeat x a ++ repeat y (k - a).
Proof.
  intros Ha Hf M. subst M.
  rewrite firstn_app, skipn_app, skipn_app, !repeat_length.
  rewrite !firstn_repeat_min, !skipn_repeat_sub.
  replace (Nat.min a (a + 1)) with a by lia.
  replace (a - (a + 1)) with 0 by lia.
  replace (a + 1 - a) with 1 by lia.
  replace (a + 1 - S a) with 0 by lia.
  replace (S a - (a + 1)) with 0 by lia.
  cbn [Nat.min repeat firstn skipn app map Nat.sub].
  rewrite app_nil_r, Nat.sub_0_r, Hf.
  replace (k - a) with (S (k - (a + 1))) by lia.
  reflexivity.
Qed.

Lemma count_zeros_app (l l' : kernel) :
  count_zeros (l ++ l') = count_zeros l + count_zeros l'.
Proof.
  unfold count_zeros. induction l as [| r l IH]; simpl; [reflexivity |].
  rewrite IH. lia.
Qed.

Lemma filter_zero_ones (k : nat) : filter is_zero (repeat 1%R k) = [].
Proof. induction k; simpl; [| rewrite is_zero_1]; trivial. Qed.

Lemma filter_zero_zeros (k : nat) : filter is_zero (repeat 0%R k) = repeat 0%R k.
Proof. induction k; simpl; [| rewrite is_zero_0, IHk]; trivial. Qed.

Lemma count_zeros_ones_rows (k n : nat) : count_zeros (repeat (repeat 1%R k) n) = 0.
Proof.
  unfold count_zeros. induction n; simpl; [reflexivity |].
  rewrite filter_zero_ones, IHn. reflexivity.
Qed.

Lemma count_zeros_zero_rows (k n : nat) : count_zeros (repeat (repeat 0%R k) n) = n * k.
Proof.
  unfold count_zeros. induction n; simpl; [reflexivity |].
  rewrite filter_zero_zeros, repeat_length, IHn. reflexivity.
Qed.

Lemma zero_row_ones (k : nat) : zero_row (repeat 1%R k) = repeat 0%R k.
Proof. unfold zero_row. apply map_repeat. Qed.

Lemma half_lt (k : nat) : 1 <= k -> k / 2 < k.
Proof. intros H. apply Nat.div_lt; lia. Qed.

Lemma repeat_rows_binary (v : R) (k n : nat) :
  (v = 0 \/ v = 1)%R -> binary_mask (repeat (repeat v k) n).
Proof.
  intros Hv. unfold binary_mask. apply Forall_forall. intros row Hrow.
  apply repeat_spec in Hrow. subst row.
  apply Forall_forall. intros x Hx. apply repeat_spec in Hx. subst x. exact Hv.
Qed.

Lemma vertical_mask_eq (k : nat) (mask_center : bool) :
  vertical_mask k mask_center
  = if (k =? 0) && mask_center then Err IndexError
    else Ok (repeat (repeat 1%R k) (Nat.min (kept k mask_center) k)
             ++ repeat (repeat 0%R k) (k - kept k mask_center)).
Proof.
  destruct k as [| k']; [destruct mask_center; reflexivity |].
  set (k := S k'). assert (Hk : 1 <= k) by (subst k; lia).
  change (S k' =? 0) with false. cbn [andb].
  pose proof (half_lt k Hk) as Hlt.
  unfold vertical_mask, zero_rows_from, ones, kept.
  rewrite (assign_from_repeat zero_row), zero_row_ones.
  replace (Nat.min (k / 2 + 1) k) with (k / 2 + 1) by lia.
  destruct mask_center.
  - unfold zero_row_at. rewrite length_app, !repeat_length.
    rewrite (proj2 (Nat.ltb_lt _ _)) by lia.
    rewrite (assign_at_repeat zero_row (repeat 1%R k) (repeat 0%R k) (k / 2) k Hlt
               (zero_row_ones k)).
    rewrite Nat.add_0_r. replace (Nat.min (k / 2) k) with (k / 2) by lia. reflexivity.
  - replace (Nat.min (k / 2 + 1) k) with (k / 2 + 1) by lia. reflexivity.
Qed.

Lemma horizontal_mask_eq (k : nat) (mask_center : bool) :
  horizontal_mask k mask_center
  = if (k =? 0) && mask_center then Err IndexError
    else Ok [repeat 1%R (Nat.min (kept k mask_center) k)
             ++ repeat 0%R (k - kept k mask_center)].
Proof.
  destruct k as [| k']; [destruct mask_center; reflexivity |].
  set (k := S k'). assert (Hk : 1 <= k) by (subst k; lia).
  change (S k' =? 0) with false. cbn [andb].
  pose proof (half_lt k Hk) as Hlt.
  unfold horizontal_mask, ones, kept. cbn [repeat zero_cols_from].
  unfold zero_row. rewrite (assign_from_repeat (fun _ : R => 0%R)).
  replace (Nat.min (k / 2 + 1) k) with (k / 2 + 1) by lia.
  destruct mask_center.
  - unfold zero_at, zero_row. rewrite length_app, !repeat_length.
    rewrite (proj2 (Nat.ltb_lt _ _)) by lia.
    rewrite (assign_at_repeat (fun _ : R => 0%R) 1%R 0%R (k / 2) k Hlt eq_refl).
    rewrite Nat.add_0_r. replace (Nat.min (k / 2) k) with (k / 2) by lia. reflexivity.
  - replace (Nat.min (k / 2 + 1) k) with (k / 2 + 1) by lia. reflexivity.
Qed.

(** X1. For every kernel extent k, the vertical mask is k rows of k
    entries: k/2 rows of ones (k/2 + 1 when the centre is kept) followed
    by rows of zeros; it has (k - rows kept) * k zero entries and only
    the entries 0 and 1.  For k = 0 with the centre masked the row
    assignment raises IndexError. *)
Theorem vertical_mask_closed_form (k : nat) (mask_center : bool) :
  vertical_mask k mask_center
  = (if (k =? 0) && mask_center then Err IndexError
     else Ok (repeat (repeat 1%R k) (Nat.min (kept k mask_center) k)
              ++ repeat (repeat 0%R k) (k - kept k mask_center))) /\
  forall m, vertical_mask k mask_center = Ok m ->
    count_zeros m = (k - kept k mask_center) * k /\
    binary_mask m /\ rectangular m /\ length m = k.
Proof.
  split; [apply vertical_mask_eq |].
  intros m Hm. rewrite vertical_mask_eq in Hm.
  destruct ((k =? 0) && mask_center); [discriminate |]. injection Hm as <-.
  split; [| split; [| split]].
  - rewrite count_zeros_app, count_zeros_ones_rows, count_zeros_zero_rows. reflexivity.
  - apply Forall_app. split; apply repeat_rows_binary; auto.
  - assert (Hrows : Forall (fun row : list R => length row = k)
                      (repeat (repeat 1%R k) (Nat.min (kept k mask_center) k)
                       ++ repeat (repeat 0%R k) (k - kept k mask_center))).
    { apply Forall_app. split; apply Forall_forall; intros row Hrow;
        apply repeat_spec in Hrow; subst row; apply repeat_length. }
    unfold rectangular, mask_dims. cbn [snd].
    revert Hrows. generalize (repeat (repeat 1%R k) (Nat.min (kept k mask_center) k)
                       ++ repeat (repeat 0%R k) (k - kept k mask_center)).
    intros l Hl. destruct l as [| r l]; [constructor |].
    cbn [hd]. inversion Hl; subst. 
    revert Hl. apply Forall_impl. intros a Ha. congruence.
  - rewrite length_app, !repeat_length. unfold kept. destruct mask_center; lia.
Qed.

(** X2. For every kernel extent k, the horizontal mask is one row of k
    entries: k/2 ones (k/2 + 1 when the centre is kept) followed by
    zeros; it has k minus that many zero entries and only the entries 0
    and 1.  For k = 0 with the centre masked the assignment raises
    IndexError. *)
Theorem horizontal_mask_closed_form (k : nat) (mask_center : bool) :
  horizontal_mask k mask_center
  = (if (k =? 0) && mask_center then Err IndexError
     else Ok [repeat 1%R (Nat.min (kept k mask_center) k)
              ++ repeat 0%R (k - kept k mask_center)]) /\
  forall m, horizontal_mask k mask_center = Ok m ->
    count_zeros m = k - kept k mask_center /\
    binary_mask m /\ rectangular m /\ mask_dims m = (1, k).
Proof.
  split; [apply horizontal_mask_eq |].
  intros m Hm. rewrite horizontal_mask_eq in Hm.
  destruct ((k =? 0) && mask_center); [discriminate |]. injection Hm as <-.
  assert (Hlen : length (repeat 1%R (Nat.min (kept k mask_center) k)
                         ++ repeat 0%R (k - kept k mask_center)) = k).
  { rewrite length_app, !repeat_length. unfold kept. destruct mask_center; lia. }
  split; [| split; [| split]].
  - unfold count_zeros. cbn [fold_right].
    rewrite filter_app, filter_zero_ones, filter_zero_zeros. cbn [app].
    rewrite repeat_length. lia.
  - constructor; [| constructor].
    apply Forall_app. split; apply Forall_forall; intros x Hx;
      apply repeat_spec in Hx; subst x; auto.
  - unfold rectangular, mask_dims. cbn [snd hd]. constructor; [reflexivity | constructor].
  - unfold mask_dims. cbn [length hd]. rewrite Hlen. reflexivity.
Qed.

(** ** Output size and stored weights of a masked convolution *)

Lemma MaskedConvolution_init_imul (c_in c_out d : nat) (m : kernel) (p : params) :
  rectangular m ->
  imul_mask (conv (MaskedConvolution_init c_in c_out m d p)) m
  = Ok (conv (apply_mask (MaskedConvolution_init c_in c_out m d p))).
Proof.
  intros Hrect. unfold imul_mask, MaskedConvolution_init. cbn [conv kernel_size].
  change (length m, length (hd [] m)) with (mask_dims m).
  rewrite (expand_mask_same m Hrect). reflexivity.
Qed.

Lemma odd_kernel_even_reach (d k : nat) : Nat.Odd k -> (d * (k - 1)) mod 2 = 0.
Proof.
  intros [q ->]. replace (2 * q + 1 - 1) with (q * 2) by lia.
  rewrite Nat.mul_assoc. apply Nat.Div0.mod_mul.
Qed.

(** X3. A constructed masked convolution with at least one input and
    one output channel and a dilation of at least 1, applied to an input
    with its channel count, returns a map of height
    H - (dilation * (kH - 1)) mod 2 and width
    W - (dilation * (kW - 1)) mod 2: the padding dilation * (k - 1) / 2
    keeps the size for every odd kernel extent and every such dilation,
    and loses one row or column otherwise. *)
Theorem masked_conv_output_size (c_in c_out d : nat) (m : kernel) (p : params)
    (x : tensor4 R) :
  rectangular m -> 1 <= fst (mask_dims m) -> 1 <= snd (mask_dims m) ->
  1 <= c_in -> 1 <= c_out -> 1 <= d ->
  tC x = c_in ->
  (d * (fst (mask_dims m) - 1)) mod 2 < tH x ->
  (d * (snd (mask_dims m) - 1)) mod 2 < tW x ->
  exists y mc',
    MaskedConvolution_forward (MaskedConvolution_init c_in c_out m d p) x = Ok (y, mc') /\
    shape4 y = (tB x, c_out, tH x - (d * (fst (mask_dims m) - 1)) mod 2,
                             tW x - (d * (snd (mask_dims m) - 1)) mod 2) /\
    (Nat.Odd (fst (mask_dims m)) -> Nat.Odd (snd (mask_dims m)) ->
     shape4 y = (tB x, c_out, tH x, tW x)).
Proof.
  intros Hrect HkH HkW _ _ _ HC HH HW.
  set (eH := d * (fst (mask_dims m) - 1)) in *.
  set (eW := d * (snd (mask_dims m) - 1)) in *.
  pose proof (Nat.div_mod_eq eH 2) as DH. pose proof (Nat.div_mod_eq eW 2) as DW.
  unfold MaskedConvolution_forward.
  change (mask (MaskedConvolution_init c_in c_out m d p)) with m.
  rewrite (MaskedConvolution_init_imul c_in c_out d m p Hrect). cbn [bind].
  unfold conv2d, apply_mask, MaskedConvolution_init, set_weight.
  cbn [conv mask in_channels kernel_size dilation padding fst snd].
  change (length m) with (fst (mask_dims m)).
  change (length (hd [] m)) with (snd (mask_dims m)).
  fold eH eW.
  rewrite (proj2 (Nat.eqb_eq _ _) HC).
  rewrite (proj2 (Nat.leb_le (eH + 1) _)) by lia.
  rewrite (proj2 (Nat.leb_le (eW + 1) _)) by lia.
  cbn [andb bind].
  match goal with
  | |- exists y mc', Ok (?Y, ?M) = _ /\ _ => exists Y, M; set (out := Y)
  end.
  split; [reflexivity |].
  assert (S : shape4 out = (tB x, c_out, tH x - eH mod 2, tW x - eW mod 2)).
  { subst out. unfold shape4, conv2d_out.
    cbn [tB tC tH tW out_channels kernel_size dilation padding fst snd].
    fold eH eW.
    repeat match goal with |- (_, _) = (_, _) => apply f_equal2 end;
      try reflexivity; lia. }
  split; [exact S |].
  intros OH OW. rewrite S.
  subst eH eW. rewrite !odd_kernel_even_reach by assumption.
  rewrite !Nat.sub_0_r. reflexivity.
Qed.

(** X4. After a call of a constructed masked convolution, every stored
    weight is the weight before the call times the mask entry at its
    kernel position: zero where the mask is 0, as before where it is 1. *)
Theorem masked_weights_after_forward (c_in c_out d : nat) (m : kernel) (p : params)
    (x y : tensor4 R) (mc' : MaskedConvolution) :
  rectangular m ->
  MaskedConvolution_forward (MaskedConvolution_init c_in c_out m d p) x = Ok (y, mc') ->
  forall o i ky kx,
    get4 (weight (conv mc')) o i ky kx = (get4 (fst p) o i ky kx * get2 m ky kx)%R /\
    (get2 m ky kx = 0%R -> get4 (weight (conv mc')) o i ky kx = 0%R) /\
    (get2 m ky kx = 1%R -> get4 (weight (conv mc')) o i ky kx = get4 (fst p) o i ky kx).
Proof.
  intros Hrect Hfw o i ky kx.
  unfold MaskedConvolution_forward in Hfw.
  change (mask (MaskedConvolution_init c_in c_out m d p)) with m in Hfw.
  rewrite (MaskedConvolution_init_imul c_in c_out d m p Hrect) in Hfw. cbn [bind] in Hfw.
  destruct (conv2d _ x) as [y' |]; [| discriminate]. cbn [bind] in Hfw.
  injection Hfw as _ <-.
  cbn [conv apply_mask set_weight weight MaskedConvolution_init mask].
  rewrite get4_mul_weight.
  split; [reflexivity |]. split; intros ->; ring.
Qed.

(** ** The gated block *)

Lemma GatedMaskedConv_init_eq (c d : nat) (p : gated_params) :
  GatedMaskedConv_init c d p = Ok (gated c d p).
Proof.
  unfold GatedMaskedConv_init, VerticalStackConvolution_init,
    HorizontalStackConvolution_init.
  change (vertical_mask 3 false) with (Ok (vmask false)).
  change (horizontal_mask 3 false) with (Ok (hmask false)).
  cbn [bind]. unfold MaskedConvolution_init, gated, vconv, hconv.
  cbn [length hd vmask hmask fst snd].
  change (3 - 1) with 2. change (1 - 1) with 0.
  rewrite Nat.div_mul by lia. rewrite Nat.mul_0_r.
  change (0 / 2) with 0. reflexivity.
Qed.

(** X5. A gated block built by the constructor, with a dilation of at
    least 1, maps a vertical and a horizontal feature map of shape
    (B, c, H, W), with c, H and W at least 1, to a pair of maps of that
    same shape. *)
Theorem gated_block_preserves_shape (c d : nat) (p : gated_params)
    (g : GatedMaskedConv) (v h : tensor4 R) (B H W : nat) :
  GatedMaskedConv_init c d p = Ok g -> 1 <= d ->
  shape4 v = (B, c, H, W) -> shape4 h = (B, c, H, W) ->
  1 <= c -> 1 <= H -> 1 <= W ->
  exists v' h' g',
    GatedMaskedConv_forward g v h = Ok (v', h', g') /\
    shape4 v' = (B, c, H, W) /\ shape4 h' = (B, c, H, W).
Proof.
  rewrite GatedMaskedConv_init_eq. intros [= <-] _ Hv Hh Hc H1 W1.
  destruct (gated_out_shapes c d p v h B H W Hv Hh) as [Sv Sh].
  exists (gated_v (gated c d p) v), (gated_h (gated c d p) v h),
         (masked_gated (gated c d p)).
  split; [apply (GatedMaskedConv_forward_eq c d p v h B H W); assumption |].
  split; assumption.
Qed.

Ltac inv_bind H :=
  match type of H with
  | bind ?c _ = Ok _ =>
      let E := fresh "E" in
      destruct c as [? | ?] eqn:E; cbn [bind] in H; [| discriminate H]
  end;
  repeat match type of H with
         | (let '(_, _) := ?p in _) = _ => destruct p
         end.

Lemma GatedMaskedConv_forward_vertical (g : GatedMaskedConv) (v h v' h' : tensor4 R)
    (g' : GatedMaskedConv) :
  GatedMaskedConv_forward g v h = Ok (v', h', g') ->
  exists feat cv val gate,
    MaskedConvolution_forward (conv_vert g) v = Ok (feat, cv) /\
    chunk2 feat = Ok (val, gate) /\
    v' = tzip_out Rmult (tmap tanh val) (tmap sigmoid gate) /\
    conv_vert g' = cv.
Proof.
  unfold GatedMaskedConv_forward. intros H.
  inv_bind H. inv_bind H. inv_bind H. inv_bind H. inv_bind H.
  inv_bind H. inv_bind H. inv_bind H. inv_bind H. inv_bind H.
  injection H as <- _ <-.
  unfold tzip in E1. destruct (same_shape _ _); [| discriminate].
  injection E1 as <-.
  eexists. eexists. eexists. eexists.
  split; [reflexivity |]. split; [eassumption |]. split; reflexivity.
Qed.

(** X6. The vertical output of a gated block does not depend on the
    horizontal input: two calls with the same vertical input return the
    same vertical output and leave the same vertical convolution. *)
Theorem gated_vertical_ignores_horizontal (g : GatedMaskedConv)
    (v h1 h2 v1 o1 v2 o2 : tensor4 R) (g1 g2 : GatedMaskedConv) :
  GatedMaskedConv_forward g v h1 = Ok (v1, o1, g1) ->
  GatedMaskedConv_forward g v h2 = Ok (v2, o2, g2) ->
  v1 = v2 /\ conv_vert g1 = conv_vert g2.
Proof.
  intros H1 H2.
  apply GatedMaskedConv_forward_vertical in H1, H2.
  destruct H1 as (f1 & c1 & a1 & b1 & E1 & K1 & -> & ->).
  destruct H2 as (f2 & c2 & a2 & b2 & E2 & K2 & -> & ->).
  rewrite E1 in E2. injection E2 as <- <-.
  rewrite K1 in K2. injection K2 as <- <-.
  split; reflexivity.
Qed.

Lemma div_between (a b : R) : (0 < b -> - b < a < b -> -1 < a / b < 1)%R.
Proof.
  intros Hb [Hl Hu].
  assert (Hi : (0 < / b)%R) by (apply Rinv_0_lt_compat; exact Hb).
  assert (Hone : (b * / b = 1)%R) by (apply Rinv_r; lra).
  unfold Rdiv. split; nra.
Qed.

Lemma tanh_bounds (x : R) : (-1 < tanh x < 1)%R.
Proof.
  unfold tanh, sinh, cosh.
  pose proof (exp_pos x) as Hp. pose proof (exp_pos (- x)) as Hn.
  apply div_between; lra.
Qed.

Lemma sigmoid_bounds (x : R) : (0 < sigmoid x < 1)%R.
Proof.
  unfold sigmoid. pose proof (exp_pos (- x)) as Hn.
  split; [apply Rdiv_lt_0_compat; lra |].
  apply (div_between 1 (1 + exp (- x))); lra.
Qed.

(** X7. Every entry of the vertical output of a gated block lies
    between -1 and 1. *)
Theorem gated_vertical_bounded (g : GatedMaskedConv) (v h v' h' : tensor4 R)
    (g' : GatedMaskedConv) :
  GatedMaskedConv_forward g v h = Ok (v', h', g') ->
  forall b c y x, (-1 <= dat v' b c y x <= 1)%R.
Proof.
  intros H b c y x.
  apply GatedMaskedConv_forward_vertical in H.
  destruct H as (f & cv & val & gate & _ & _ & -> & _).
  cbn [tzip_out tmap dat].
  pose proof (tanh_bounds (dat val b c y x)) as Ht.
  pose proof (sigmoid_bounds (dat gate b c y x)) as Hs.
  split; nra.
Qed.

(** ** The forward pass *)

(** X8. On an image of shape (B, c_in, H, W) with at least one
    channel, row and column, [forward] returns logits of shape
    (B, 256, c_in, H, W) and leaves a well-formed model. *)
Theorem forward_logits_shape (c_in c_hidden : nat) (m : PixelCNN) (x : tensor4 Z)
    (B H W : nat) :
  well_formed c_in c_hidden m -> 1 <= c_hidden -> 1 <= c_in ->
  shape4 x = (B, c_in, H, W) -> 1 <= H -> 1 <= W ->
  exists l m',
    PixelCNN_forward m x = Ok (l, m') /\
    shape5 l = (B, 256, c_in, H, W) /\
    well_formed c_in c_hidden m'.
Proof.
  intros Hwf Hc _ Hx H1 W1.
  destruct (PixelCNN_forward_eq c_in c_hidden m x B H W Hwf Hx Hc H1 W1) as [E S].
  exists (logits_out m x), (masked_model m).
  split; [exact E |]. split; [exact S |].
  apply masked_model_well_formed, Hwf.
Qed.

Lemma PixelCNN_forward_channel_mismatch (c_in c_hidden : nat) (m : PixelCNN)
    (x : tensor4 Z) :
  well_formed c_in c_hidden m -> tC x <> c_in ->
  PixelCNN_forward m x = Err ShapeError.
Proof.
  intros (_ & _ & (pv & Hv) & _) HC.
  unfold PixelCNN_forward. rewrite Hv.
  unfold MaskedConvolution_forward, imul_mask.
  cbn [vconv conv mask kernel_size].
  rewrite mask_fits_vmask. cbn [bind].
  unfold conv2d. cbn [set_weight in_channels tmap tC].
  rewrite (proj2 (Nat.eqb_neq _ _) HC). reflexivity.
Qed.

(** X9. [forward] on an image whose channel count is not the model's
    fails with the shape error of the first convolution. *)
Theorem forward_rejects_channel_mismatch (c_in c_hidden : nat) (m : PixelCNN)
    (x : tensor4 Z) :
  well_formed c_in c_hidden m -> tC x <> c_in ->
  PixelCNN_forward m x = Err ShapeError.
Proof. apply PixelCNN_forward_channel_mismatch. Qed.

(** X10. The logits of a batch element depend neither on the other
    batch elements nor on the last pixel of the image: two batches, of
    any sizes, of images with at least one channel, row and column that
    coincide at batch index b everywhere but at the last raster position
    get the same logits at index b. *)
Theorem forward_batch_independent (c_in c_hidden : nat) (m : PixelCNN)
    (x1 x2 : tensor4 Z) (b H W : nat) :
  well_formed c_in c_hidden m -> 1 <= c_hidden -> 1 <= c_in ->
  shape4 x1 = (tB x1, c_in, H, W) -> shape4 x2 = (tB x2, c_in, H, W) ->
  1 <= H -> 1 <= W ->
  (forall c y w, c < c_in -> y < H -> w < W -> (y, w) <> (H - 1, W - 1) ->
     dat x1 b c y w = dat x2 b c y w) ->
  exists l1 l2 m',
    PixelCNN_forward m x1 = Ok (l1, m') /\
    PixelCNN_forward m x2 = Ok (l2, m') /\
    forall k c y w, k < 256 -> c < c_in -> y < H -> w < W ->
      dat5 l1 b k c y w = dat5 l2 b k c y w.
Proof.
  intros Hwf Hc _ S1 S2 H1 W1 Hx.
  destruct (PixelCNN_forward_eq c_in c_hidden m x1 _ H W Hwf S1 Hc H1 W1) as [E1 _].
  destruct (PixelCNN_forward_eq c_in c_hidden m x2 _ H W Hwf S2 Hc H1 W1) as [E2 _].
  apply shape4_inv in S1, S2.
  destruct S1 as (_ & C1 & T1 & V1). destruct S2 as (_ & C2 & T2 & V2).
  exists (logits_out m x1), (logits_out m x2), (masked_model m).
  split; [exact E1 |]. split; [exact E2 |].
  intros k c y w Hk Hcc Hy Hw.
  apply (logits_causal c_in c_hidden m x1 x2 b (H - 1) (W - 1) W); trivial; try lia.
  - intros c0 y0 w0 Hc0 Hbef. unfold before in Hbef.
    apply Hx; trivial; try lia. intros [= -> ->]. lia.
  - unfold upto. lia.
Qed.

Lemma masked_out_apply_mask_vconv (ci co : nat) (center : bool) (d : nat) (p : params)
    (x : tensor4 R) :
  masked_out (apply_mask (vconv ci co center d p)) x = masked_out (vconv ci co center d p) x.
Proof. unfold masked_out. rewrite apply_mask_idem_vconv. reflexivity. Qed.

Lemma masked_out_apply_mask_hconv (ci co : nat) (center : bool) (d : nat) (p : params)
    (x : tensor4 R) :
  masked_out (apply_mask (hconv ci co center d p)) x = masked_out (hconv ci co center d p) x.
Proof. unfold masked_out. rewrite apply_mask_idem_hconv. reflexivity. Qed.

Lemma layers_out_masked (c : nat) (layers : list GatedMaskedConv) :
  Forall (is_gated c) layers ->
  forall v h, layers_out (map masked_gated layers) v h = layers_out layers v h.
Proof.
  induction 1 as [| g layers (d & p & ->) _ IH]; intros v h; [reflexivity |].
  assert (Ev : gated_v (masked_gated (gated c d p)) v = gated_v (gated c d p) v).
  { unfold gated_v, masked_gated, gated. cbn [conv_vert].
    rewrite masked_out_apply_mask_vconv. reflexivity. }
  assert (Eh : gated_h (masked_gated (gated c d p)) v h = gated_h (gated c d p) v h).
  { unfold gated_h, masked_gated, gated.
    cbn [conv_vert conv_horiz conv_vert_to_horiz conv_horiz_1x1].
    rewrite masked_out_apply_mask_vconv, masked_out_apply_mask_hconv. reflexivity. }
  cbn [map layers_out]. rewrite IH, Ev, Eh. reflexivity.
Qed.

Lemma logits_out_masked_model (c_in c_hidden : nat) (m : PixelCNN) (x : tensor4 Z) :
  well_formed c_in c_hidden m -> logits_out (masked_model m) x = logits_out m x.
Proof.
  intros (_ & _ & (pv & Hv) & (ph & Hh) & Hl & _).
  unfold logits_out, masked_model.
  cbn [conv_vstack conv_hstack conv_layers conv_out].
  rewrite Hv, Hh, masked_out_apply_mask_vconv, masked_out_apply_mask_hconv.
  rewrite (layers_out_masked c_hidden _ Hl). reflexivity.
Qed.

(** X11. On an image with at least one channel, row and column, a
    second call of [forward] returns the logits of the first call and
    leaves the model as the first call left it. *)
Theorem forward_repeatable (c_in c_hidden : nat) (m : PixelCNN) (x : tensor4 Z)
    (B H W : nat) :
  well_formed c_in c_hidden m -> 1 <= c_hidden -> 1 <= c_in ->
  shape4 x = (B, c_in, H, W) -> 1 <= H -> 1 <= W ->
  exists l m1,
    PixelCNN_forward m x = Ok (l, m1) /\
    PixelCNN_forward m1 x = Ok (l, m1).
Proof.
  intros Hwf Hc _ Hx H1 W1.
  destruct (PixelCNN_forward_eq c_in c_hidden m x B H W Hwf Hx Hc H1 W1) as [E _].
  pose proof (masked_model_well_formed c_in c_hidden m Hwf) as Hwf1.
  destruct (PixelCNN_forward_eq c_in c_hidden _ x B H W Hwf1 Hx Hc H1 W1) as [E' _].
  exists (logits_out m x), (masked_model m).
  split; [exact E |].
  rewrite E', (logits_out_masked_model c_in c_hidden m x Hwf),
    (masked_model_idem c_in c_hidden m Hwf).
  reflexivity.
Qed.

(** X12. The rescaling of [forward] sends 0 to -1 and 255 to 1, is
    strictly increasing, keeps intensities of [0, 255] within [-1, 1],
    and sends the sentinel -1 below -1. *)
Theorem rescale_range (v w : Z) :
  rescale 0 = (-1)%R /\ rescale 255 = 1%R /\
  ((v < w)%Z -> (rescale v < rescale w)%R) /\
  ((0 <= v <= 255)%Z -> (-1 <= rescale v <= 1)%R) /\
  (rescale (-1) < -1)%R.
Proof.
  unfold rescale. split; [lra |]. split; [lra |]. split; [| split].
  - intros H. apply IZR_lt in H. lra.
  - intros [H0 H1]. apply IZR_le in H0, H1. lra.
  - lra.
Qed.

(** ** More on the likelihood *)

Lemma sum_n_const (n : nat) (a : R) : sum_n n (fun _ => a) = (INR n * a)%R.
Proof.
  induction n as [| n IH]; [simpl; ring |].
  cbn [sum_n]. rewrite IH, S_INR. ring.
Qed.


Lemma calc_likelihood_eq (c_in c_hidden : nat) (m : PixelCNN) (x : tensor4 Z)
    (B H W : nat) :
  well_formed c_in c_hidden m -> 1 <= c_hidden ->
  shape4 x = (B, c_in, H, W) -> 1 <= H -> 1 <= W -> valid_image x ->
  calc_likelihood m x = Ok (likelihood_spec (logits_out m x) x, masked_model m).
Proof.
  intros Hwf Hch Hx HH HW Hv.
  destruct (PixelCNN_forward_eq c_in c_hidden m x B H W Hwf Hx Hch HH HW) as [E S].
  apply shape4_inv in Hx. destruct Hx as (xB & xC & xH & xW).
  apply shape5_inv in S. destruct S as (SB & SK & SC & SH & SW).
  unfold calc_likelihood. rewrite E. cbn [bind].
  unfold cross_entropy.
  rewrite SB, SK, SC, SH, SW, xB, xC, xH, xW, !Nat.eqb_refl.
  cbn [andb]. rewrite (in_bounds4_valid x Hv). cbn [bind].
  unfold likelihood_spec, mean_n, mean123. cbn [tB tC tH tW dat].
  rewrite xB, xC, xH, xW.
  rewrite sum_n_scal. f_equal. f_equal.
  match goal with
  | |- (sum_n ?n ?f * ?a / ?d)%R = (sum_n ?n ?g / ?d * ?a)%R =>
      replace (sum_n n f) with (sum_n n g); [unfold Rdiv; ring |]
  end.
  apply sum_n_ext. intros b _. f_equal.
  apply sum_n_ext. intros c _. apply sum_n_ext. intros y _.
  apply sum_n_ext. intros w _. ring.
Qed.

Lemma likelihood_spec_nonneg (pred : tensor5 R) (x : tensor4 Z) :
  valid_image x -> 1 <= tB x -> 1 <= tC x -> 1 <= tH x -> 1 <= tW x ->
  (0 <= likelihood_spec pred x)%R.
Proof.
  intros Hv HB HC HH HW. unfold likelihood_spec.
  apply Rmult_le_pos; [| left; apply log2_e_pos].
  apply mean_nonneg; [lia |].
  apply sum_n_nonneg. intros b Hb.
  apply mean_nonneg; [nia |].
  apply sum_n_nonneg. intros c Hc.
  apply sum_n_nonneg. intros y Hy.
  apply sum_n_nonneg. intros w Hw.
  pose proof (logsumexp_ge 256 (fun k => dat5 pred b k c y w)
                (Z.to_nat (dat x b c y w))) as Hge.
  cbv beta in Hge.
  assert (Z.to_nat (dat x b c y w) < 256) by (specialize (Hv b c y w); lia).
  specialize (Hge H). lra.
Qed.

Lemma ln_256 : ln 256 = (8 * ln 2)%R.
Proof.
  replace 256%R with (2 ^ 8)%R by (simpl; lra).
  rewrite ln_pow by lra. simpl. lra.
Qed.

Lemma ln_2_pos : (0 < ln 2)%R.
Proof. rewrite <- ln_1. apply ln_increasing; lra. Qed.

Lemma INR_256 : INR 256 = 256%R.
Proof. rewrite INR_IZR_INZ. reflexivity. Qed.

(** X14. When the output convolution has zero weight and zero bias,
    [calc_likelihood] of every non-empty batch of valid images is exactly
    8 bits per dimension. *)
Theorem uniform_logits_eight_bits (c_in c_hidden : nat) (m : PixelCNN) (x : tensor4 Z)
    (B H W : nat) :
  well_formed c_in c_hidden m -> 1 <= c_hidden ->
  shape4 x = (B, c_in, H, W) -> 1 <= B -> 1 <= c_in -> 1 <= H -> 1 <= W ->
  valid_image x ->
  (forall o i, get4 (weight (conv_out m)) o i 0 0 = 0%R) ->
  (forall o, nth o (bias (conv_out m)) 0%R = 0%R) ->
  calc_likelihood m x = Ok (8%R, masked_model m).
Proof.
  intros Hwf Hch Hx HB HC HH HW Hv Hw0 Hb0.
  rewrite (calc_likelihood_eq c_in c_hidden m x B H W Hwf Hch Hx HH HW Hv).
  f_equal. f_equal.
  assert (Hlog : forall b k c y w, dat5 (logits_out m x) b k c y w = 0%R).
  { intros b k c y w. destruct Hwf as (_ & _ & _ & _ & _ & (po & Ho)).
    unfold logits_out. rewrite Ho in *.
    cbn [reshape_out dat5 conv2d_out dat Conv2d_1x1 in_channels kernel_size fst snd
         bias weight] in *.
    rewrite Hb0.
    rewrite (sum_n_ext _ _ (fun _ => 0%R)).
    - rewrite sum_n_const. ring.
    - intros i _. cbn [sum_n]. rewrite Hw0. ring. }
  apply shape4_inv in Hx. destruct Hx as (xB & xC & xH & xW).
  unfold likelihood_spec. rewrite xB, xC, xH, xW.
  assert (Hce : forall b c y w,
            (logsumexp 256 (fun k => dat5 (logits_out m x) b k c y w)
             - dat5 (logits_out m x) b (Z.to_nat (dat x b c y w)) c y w)%R = ln 256).
  { intros b c y w. rewrite Hlog. unfold logsumexp.
    rewrite (sum_n_ext 256 _ (fun _ => 1%R)).
    - rewrite sum_n_const, INR_256. rewrite Rmult_1_r. ring.
    - intros k _. rewrite Hlog. apply exp_0. }
  rewrite (sum_n_ext B _ (fun _ => ln 256)).
  - rewrite sum_n_const. unfold log2. rewrite ln_exp, ln_256.
    pose proof ln_2_pos. assert (INR B <> 0%R) by (apply not_0_INR; lia).
    field. split; lra.
  - intros b _.
    rewrite (sum_n_ext c_in _ (fun _ => (INR H * (INR W * ln 256))%R)).
    + rewrite sum_n_const, !mult_INR.
      assert (INR c_in <> 0%R) by (apply not_0_INR; lia).
      assert (INR H <> 0%R) by (apply not_0_INR; lia).
      assert (INR W <> 0%R) by (apply not_0_INR; lia).
      field. auto.
    + intros c _. rewrite (sum_n_ext H _ (fun _ => (INR W * ln 256)%R)).
      * apply sum_n_const.
      * intros y _. rewrite (sum_n_ext W _ (fun _ => ln 256)).
        -- apply sum_n_const.
        -- intros w _. apply Hce.
Qed.

Lemma in_bounds4_true (K : nat) (x : tensor4 Z) :
  in_bounds4 K x = true ->
  forall b c y w, b < tB x -> c < tC x -> y < tH x -> w < tW x ->
    (0 <= dat x b c y w < Z.of_nat K)%Z.
Proof.
  unfold in_bounds4. intros H b c y w Hb Hc Hy Hw.
  rewrite forallb_forall in H. specialize (H b ltac:(apply in_seq; lia)).
  rewrite forallb_forall in H. specialize (H c ltac:(apply in_seq; lia)).
  rewrite forallb_forall in H. specialize (H y ltac:(apply in_seq; lia)).
  rewrite forallb_forall in H. specialize (H w ltac:(apply in_seq; lia)).
  apply andb_true_iff in H. destruct H as [H0 H1].
  apply Z.leb_le in H0. apply Z.ltb_lt in H1. lia.
Qed.

(** X15. On an image holding an intensity below 0 or above 255 (other
    than -100, the class index that cross-entropy ignores), [forward]
    returns logits but [calc_likelihood] fails with a target out of
    bounds; so it fails on an image that still holds the sentinel -1. *)
Theorem likelihood_rejects_out_of_range (c_in c_hidden : nat) (m : PixelCNN)
    (x : tensor4 Z) (B H W b c y w : nat) :
  well_formed c_in c_hidden m -> 1 <= c_hidden ->
  shape4 x = (B, c_in, H, W) ->
  b < B -> c < c_in -> y < H -> w < W ->
  (dat x b c y w < 0 \/ 255 < dat x b c y w)%Z ->
  dat x b c y w <> (-100)%Z ->
  (exists l m', PixelCNN_forward m x = Ok (l, m')) /\
  calc_likelihood m x = Err TargetOutOfBounds.
Proof.
  intros Hwf Hch Hx Hb Hc Hy Hw Hout _.
  destruct (PixelCNN_forward_eq c_in c_hidden m x B H W Hwf Hx Hch) as [E S]; try lia.
  split; [eauto |].
  apply shape4_inv in Hx. destruct Hx as (xB & xC & xH & xW).
  apply shape5_inv in S. destruct S as (SB & SK & SC & SH & SW).
  unfold calc_likelihood. rewrite E. cbn [bind].
  unfold cross_entropy.
  rewrite SB, SK, SC, SH, SW, xB, xC, xH, xW, !Nat.eqb_refl. cbn [andb].
  destruct (in_bounds4 256 x) eqn:Hin; [| reflexivity].
  pose proof (in_bounds4_true 256 x Hin b c y w) as Hr. lia.
Qed.

(** ** More on sampling *)

Lemma foldM_fixed {A S : Type} (f : S -> A -> result S) (l : list A) (s : S) :
  (forall a, In a l -> f s a = Ok s) -> foldM f l s = Ok s.
Proof.
  induction l as [| a l IH]; intros H; [reflexivity |].
  cbn [foldM]. rewrite H by (left; reflexivity). cbn [bind].
  apply IH. intros a' Ha'. apply H. right. exact Ha'.
Qed.

Lemma foldM_first_error {A S : Type} (f : S -> A -> result S) (l : list A) (s : S)
    (e : error) :
  (forall a, In a l -> f s a = Ok s \/ f s a = Err e) ->
  (exists a, In a l /\ f s a = Err e) ->
  foldM f l s = Err e.
Proof.
  induction l as [| a l IH]; intros Hall (a0 & Hin & Herr); [destruct Hin |].
  cbn [foldM].
  destruct (Hall a (or_introl eq_refl)) as [Hok | Hbad].
  - rewrite Hok. cbn [bind]. apply IH.
    + intros a' Ha'. apply Hall. right. exact Ha'.
    + destruct Hin as [<- | Hin]; [congruence | eauto].
  - rewrite Hbad. reflexivity.
Qed.

Lemma all_filled_spec (img : tensor4 Z) (c h w : nat) :
  all_filled img c h w = true <->
  forall b, b < tB img -> dat img b c h w <> (-1)%Z.
Proof. exact (all_filled_iff 1 (le_n 1) img c h w). Qed.

Lemma scan_order_cells (C H W h w c : nat) :
  In (h, w, c) (scan_order C H W) <-> h < H /\ w < W /\ c < C.
Proof. exact (In_scan_order 1 (le_n 1) C H W h w c). Qed.

Section MoreSampling.

Variable RNG : Type.
Variable multinomial : RNG -> nat -> nat -> (nat -> nat -> R) -> list Z * RNG.

Lemma sample_step_filled (m : PixelCNN) (g : RNG) (img : tensor4 Z) (h w c : nat) :
  h < tH img -> w < tW img -> c < tC img ->
  (forall b, b < tB img -> dat img b c h w <> (-1)%Z) ->
  sample_step multinomial (m, g, img) h w c = Ok (m, g, img).
Proof.
  intros Hh Hw Hc Hf. unfold sample_step.
  rewrite (proj2 (Nat.ltb_lt _ _) Hc), (proj2 (Nat.ltb_lt _ _) Hh),
          (proj2 (Nat.ltb_lt _ _) Hw). cbn [andb].
  rewrite (proj2 (all_filled_spec img c h w) Hf). reflexivity.
Qed.

Lemma sample_step_outside (m : PixelCNN) (g : RNG) (img : tensor4 Z) (h w c : nat) :
  ~ (h < tH img /\ w < tW img /\ c < tC img) ->
  sample_step multinomial (m, g, img) h w c = Err IndexError.
Proof.
  intros Hout. unfold sample_step.
  destruct ((c <? tC img) && (h <? tH img) && (w <? tW img)) eqn:E; [| reflexivity].
  rewrite !andb_true_iff, !Nat.ltb_lt in E. tauto.
Qed.

Lemma sample_filled (m : PixelCNN) (B C H W : nat) (g : RNG) (s : tensor4 Z) :
  C <= tC s -> H <= tH s -> W <= tW s ->
  (forall b c y x, b < tB s -> c < C -> y < H -> x < W -> dat s b c y x <> (-1)%Z) ->
  sample multinomial m (B, C, H, W) g (Some s) = Ok (m, g, s).
Proof.
  intros HC HH HW Hf. rewrite sample_scan. cbn [seed_or_empty].
  apply foldM_fixed. intros [[h w] c] Hin.
  apply scan_order_cells in Hin. destruct Hin as (Hh & Hw & Hc).
  apply sample_step_filled; try lia. intros b Hb. apply Hf; trivial.
Qed.

(** X16. On a seed that holds no -1 in the requested cells, [sample]
    returns the seed, the generator and the model as they were given,
    whatever the model. *)
Theorem sample_filled_seed_identity (m : PixelCNN) (B C H W : nat) (g : RNG)
    (s : tensor4 Z) :
  C <= tC s -> H <= tH s -> W <= tW s ->
  (forall b c y x, b < tB s -> c < C -> y < H -> x < W -> dat s b c y x <> (-1)%Z) ->
  sample multinomial m (B, C, H, W) g (Some s) = Ok (m, g, s).
Proof. apply sample_filled. Qed.

(** X17. On a seed that holds no -1, [sample] fails with IndexError
    as soon as the requested shape has a cell that the seed does not
    have. *)
Theorem sample_seed_too_small (m : PixelCNN) (B C H W : nat) (g : RNG)
    (s : tensor4 Z) (h w c : nat) :
  (forall b c y x, b < tB s -> c < tC s -> y < tH s -> x < tW s ->
     dat s b c y x <> (-1)%Z) ->
  h < H -> w < W -> c < C ->
  ~ (h < tH s /\ w < tW s /\ c < tC s) ->
  sample multinomial m (B, C, H, W) g (Some s) = Err IndexError.
Proof.
  intros Hf Hh Hw Hc Hout. rewrite sample_scan. cbn [seed_or_empty].
  apply foldM_first_error.
  - intros [[h1 w1] c1] _.
    destruct (lt_dec h1 (tH s)) as [H1 |H1];
      [destruct (lt_dec w1 (tW s)) as [W1 | W1];
       [destruct (lt_dec c1 (tC s)) as [C1 | C1] |] |].
    + left. apply sample_step_filled; trivial. intros b Hb. apply Hf; trivial.
    + right. apply sample_step_outside. tauto.
    + right. apply sample_step_outside. tauto.
    + right. apply sample_step_outside. tauto.
  - exists (h, w, c). split; [apply scan_order_cells; auto |].
    apply sample_step_outside. exact Hout.
Qed.

(** X18. Without a seed, [sample] for a non-empty shape whose channel
    count is not the model's fails with the shape error of [forward]. *)
Theorem sample_rejects_channel_mismatch (c_in c_hidden : nat) (m : PixelCNN)
    (B C H W : nat) (g : RNG) :
  well_formed c_in c_hidden m -> C <> c_in ->
  1 <= B -> 1 <= C -> 1 <= H -> 1 <= W ->
  sample multinomial m (B, C, H, W) g None = Err ShapeError.
Proof.
  intros Hwf HC HB H1 H2 H3. rewrite sample_scan.
  destruct B as [| B']; [lia |]. destruct C as [| C']; [lia |].
  destruct H as [| H']; [lia |]. destruct W as [| W']; [lia |].
  unfold scan_order. cbn [seq flat_map map app foldM seed_or_empty].
  assert (E : sample_step multinomial (m, g, full (S B', S C', S H', S W') (-1)) 0 0 0
              = Err ShapeError).
  { unfold sample_step. cbn [full tB tC tH tW Nat.ltb Nat.leb andb].
    unfold all_filled. cbn [tB seq forallb dat].
    rewrite Z.eqb_refl. cbn [negb andb].
    rewrite (PixelCNN_forward_channel_mismatch c_in c_hidden m _ Hwf);
      [reflexivity | exact HC]. }
  rewrite E. reflexivity.
Qed.

End MoreSampling.

Section SamplingComposed.

Variable RNG : Type.
Variable multinomial : RNG -> nat -> nat -> (nat -> nat -> R) -> list Z * RNG.
Hypothesis multinomial_spec : multinomial_ok multinomial.

(** X19. Sampling again from the result of [sample] changes nothing:
    the second call returns the image, the generator and the model of the
    first. *)
Theorem sample_idempotent (c_in c_hidden : nat) (m : PixelCNN) (B H W : nat) (g : RNG)
    (seed : option (tensor4 Z)) (m' : PixelCNN) (g' : RNG) (img' : tensor4 Z) :
  well_formed c_in c_hidden m -> 1 <= c_hidden ->
  shape4 (seed_or_empty (B, c_in, H, W) seed) = (B, c_in, H, W) ->
  sample multinomial m (B, c_in, H, W) g seed = Ok (m', g', img') ->
  sample multinomial m' (B, c_in, H, W) g' (Some img') = Ok (m', g', img').
Proof.
  intros Hwf Hch Hs Hsample.
  destruct (sample_spec RNG multinomial multinomial_spec c_in c_hidden Hch
              m B H W g seed Hwf Hs) as (m1 & g1 & img1 & E & _ & S1 & Hr & _).
  rewrite E in Hsample. injection Hsample as <- <- <-.
  apply shape4_inv in S1. destruct S1 as (SB & SC & SH & SW).
  apply sample_filled; try lia.
  intros b c y x Hb Hc Hy Hx. apply (Hr b c y x); lia.
Qed.

(** X20. The image returned by [sample], for a non-empty shape and a
    valid or absent seed, is a valid input of [calc_likelihood], which
    returns a non-negative value on it. *)
Theorem likelihood_of_sample (c_in c_hidden : nat) (m : PixelCNN) (B H W : nat) (g : RNG)
    (seed : option (tensor4 Z)) (m' : PixelCNN) (g' : RNG) (img' : tensor4 Z) :
  well_formed c_in c_hidden m -> 1 <= c_hidden ->
  1 <= B -> 1 <= c_in -> 1 <= H -> 1 <= W ->
  match seed with
  | None => True
  | Some s => shape4 s = (B, c_in, H, W) /\ valid_seed s
  end ->
  sample multinomial m (B, c_in, H, W) g seed = Ok (m', g', img') ->
  valid_image img' /\
  exists v m'', calc_likelihood m' img' = Ok (v, m'') /\ (0 <= v)%R.
Proof.
  intros Hwf Hch HB HC HH HW Hseed Hsample.
  destruct (sample_spec RNG multinomial multinomial_spec c_in c_hidden Hch
              m B H W g seed Hwf) as (m1 & g1 & img1 & E & Hm & S1 & Hr & _).
  { destruct seed as [s |]; [apply Hseed | reflexivity]. }
  rewrite E in Hsample. injection Hsample as <- <- <-.
  pose proof (shape4_inv _ _ _ _ _ S1) as (SB & SC & SH & SW).
  assert (Hvalid : valid_image img1).
  { intros b c y x Hb Hc Hy Hx. rewrite SB, SC, SH, SW in *.
    destruct (Hr b c y x Hb Hc Hy Hx) as [Hne [Heq | Hran]]; [| lia].
    rewrite Heq in *. destruct seed as [s |]; cbn [seed_or_empty] in *.
    - destruct Hseed as [Hshape Hvs].
      apply shape4_inv in Hshape. destruct Hshape as (TB & TC & TH & TW).
      destruct (Hvs b c y x); lia.
    - cbn [full dat] in Hne. contradiction. }
  split; [exact Hvalid |].
  assert (Hwf1 : well_formed c_in c_hidden m1).
  { destruct Hm as [-> | ->]; [exact Hwf | apply masked_model_well_formed, Hwf]. }
  exists (likelihood_spec (logits_out m1 img1) img1), (masked_model m1).
  split.
  - apply (calc_likelihood_eq c_in c_hidden m1 img1 B H W); trivial.
  - apply likelihood_spec_nonneg; trivial; lia.
Qed.

End SamplingComposed.

(** ** Counting the draws *)






Section DrawCount.

Variable RNG : Type.
Variable multinomial : RNG -> nat -> nat -> (nat -> nat -> R) -> list Z * RNG.
Hypothesis multinomial_spec : multinomial_ok multinomial.


End DrawCount.

(** ** The weights of the draws *)



Section DrawWeights.

Variable RNG : Type.
Variable multinomial : RNG -> nat -> nat -> (nat -> nat -> R) -> list Z * RNG.
Hypothesis multinomial_spec : multinomial_ok multinomial.


End DrawWeights.

(** ** The receptive field *)

Lemma region_ok_window (h w W r : nat) : region_ok h W (window h w W r).
Proof. intros y x (? & ? & ? & ? & ?). auto. Qed.

Lemma region_ok_causal_window (h w W r : nat) : region_ok h W (causal_window h w W r).
Proof. intros y x [(? & ? & ? & ? & ?) _]. auto. Qed.

Lemma agree_vconv_window (b h w W r ci co d : nat) (p : params) (s t : tensor4 R) :
  agree b h W (window h w W (r + d)) s t -> tC s = ci ->
  agree b h W (window h w W r) (masked_out (vconv ci co false d p) s)
                               (masked_out (vconv ci co false d p) t).
Proof.
  intros Hag HC.
  apply agree_masked_out with (P := window h w W (r + d)); trivial.
  - split; simpl; lia.
  - intros y x ky kx (Hy & Hy' & Hx & Hx' & HW).
    kernel_cases ky kx; unfold window; split; lia.
Qed.

Lemma agree_hconv_window (b h w W r ci co d : nat) (p : params) (s t : tensor4 R) :
  agree b h W (causal_window h w W (r + d)) s t -> tC s = ci ->
  agree b h W (causal_window h w W r) (masked_out (hconv ci co false d p) s)
                                      (masked_out (hconv ci co false d p) t).
Proof.
  intros Hag HC.
  apply agree_masked_out with (P := causal_window h w W (r + d)); trivial.
  - split; simpl; lia.
  - intros y x ky kx [(Hy & Hy' & Hx & Hx' & HW) Hc].
    kernel_cases ky kx; unfold causal_window, window; split; lia.
Qed.

Lemma agree_gated_window (b h w W r c d : nat) (p : gated_params)
    (v1 v2 h1 h2 : tensor4 R) :
  agree b h W (window h w W (r + d)) v1 v2 ->
  agree b h W (causal_window h w W (r + d)) h1 h2 ->
  tC v1 = c -> tC h1 = c ->
  agree b h W (window h w W r) (gated_v (gated c d p) v1) (gated_v (gated c d p) v2) /\
  agree b h W (causal_window h w W r)
        (gated_h (gated c d p) v1 h1) (gated_h (gated c d p) v2 h2).
Proof.
  intros Hv Hh Cv Ch.
  unfold gated_v, gated_h, gated.
  cbn [conv_vert conv_horiz conv_vert_to_horiz conv_horiz_1x1].
  pose proof (agree_vconv_window b h w W r c (2 * c) d (p_vert p) v1 v2 Hv Cv) as Fv.
  split.
  - apply agree_gate_out with (c := c); [exact Fv | reflexivity].
  - apply agree_tzip_out; [| | side].
    + apply agree_conv1x1; [apply region_ok_causal_window | | side].
      apply agree_gate_out with (c := c); [| reflexivity].
      apply agree_tzip_out; [| | side].
      * apply agree_hconv_window; trivial.
      * apply agree_weaken with (P := window h w W r); [intros y x [? _]; assumption |].
        apply agree_conv1x1; [apply region_ok_window | exact Fv | reflexivity].
    + apply agree_weaken with (P := causal_window h w W (r + d)); [| exact Hh].
      intros y x [(? & ? & ? & ? & ?) ?]. unfold causal_window, window.
      repeat split; trivial; lia.
Qed.

Lemma agree_layers_window (b h w W c : nat) (layers : list GatedMaskedConv) :
  Forall (is_gated c) layers ->
  forall (r : nat) (v1 v2 h1 h2 : tensor4 R),
    let R := fold_right (fun g n => gated_dilation g + n) 0 layers in
    agree b h W (window h w W (r + R)) v1 v2 ->
    agree b h W (causal_window h w W (r + R)) h1 h2 ->
    tC v1 = c -> tC h1 = c ->
    agree b h W (causal_window h w W r)
          (snd (layers_out layers v1 h1)) (snd (layers_out layers v2 h2))
    /\ tC (snd (layers_out layers v1 h1)) = c.
Proof.
  induction 1 as [| g layers (d & p & ->) _ IH]; intros r v1 v2 h1 h2 R Hv Hh Cv Ch.
  - subst R. cbn [fold_right] in *. rewrite Nat.add_0_r in *. simpl. auto.
  - subst R. cbn [fold_right layers_out] in *.
    change (gated_dilation (gated c d p)) with d in *.
    set (R' := fold_right (fun g n => gated_dilation g + n) 0 layers) in *.
    replace (r + (d + R')) with ((r + R') + d) in * by lia.
    destruct (agree_gated_window b h w W (r + R') c d p v1 v2 h1 h2 Hv Hh Cv Ch)
      as [Hv' Hh'].
    apply IH; trivial.
    unfold gated_v, gated. cbn [conv_vert]. side.
Qed.

Lemma agree_vconv_center_window (b h w W r ci co : nat) (p : params) (s t : tensor4 R) :
  agree b h W (fun y x => window h w W (r + 1) y x /\ before h w W y x) s t ->
  tC s = ci ->
  agree b h W (window h w W r) (masked_out (vconv ci co true 1 p) s)
                               (masked_out (vconv ci co true 1 p) t).
Proof.
  intros Hag HC.
  apply agree_masked_out
    with (P := fun y x => window h w W (r + 1) y x /\ before h w W y x); trivial.
  - split; simpl; lia.
  - intros y x ky kx (Hy & Hy' & Hx & Hx' & HW).
    kernel_cases ky kx; unfold window, before; split; lia.
Qed.

Lemma agree_hconv_center_window (b h w W r ci co : nat) (p : params) (s t : tensor4 R) :
  agree b h W (fun y x => window h w W (r + 1) y x /\ before h w W y x) s t ->
  tC s = ci ->
  agree b h W (causal_window h w W r) (masked_out (hconv ci co true 1 p) s)
                                      (masked_out (hconv ci co true 1 p) t).
Proof.
  intros Hag HC.
  apply agree_masked_out
    with (P := fun y x => window h w W (r + 1) y x /\ before h w W y x); trivial.
  - split; simpl; lia.
  - intros y x ky kx [(Hy & Hy' & Hx & Hx' & HW) Hc].
    kernel_cases ky kx; unfold window, before; split; lia.
Qed.

Lemma reach_init (c_in c_hidden : nat) (p : model_params) (m : PixelCNN) :
  PixelCNN_init c_in c_hidden p = Ok m -> reach m = 13.
Proof. rewrite PixelCNN_init_eq. intros [= <-]. reflexivity. Qed.

(** X22. For a model with at least one image channel, the logits at
    (h, w) depend only on the pixels that precede (h, w) in raster order
    and lie at most [reach] rows above and at most [reach] columns to
    either side, [reach] being 1 plus the sum of the dilations of the
    gated blocks: 13 for the model the constructor builds. *)
Theorem receptive_field (c_in c_hidden : nat) (m : PixelCNN) (x1 x2 : tensor4 Z)
    (b h w : nat) :
  well_formed c_in c_hidden m -> 1 <= c_hidden -> 1 <= c_in ->
  shape4 x1 = shape4 x2 -> tC x1 = c_in -> h < tH x1 -> w < tW x1 ->
  (forall c y x,
     c < c_in -> x < tW x1 ->
     y <= h -> h <= y + reach m -> x <= w + reach m -> w <= x + reach m ->
     (y < h \/ x < w) ->
     dat x1 b c y x = dat x2 b c y x) ->
  (exists l1 l2 m',
     PixelCNN_forward m x1 = Ok (l1, m') /\
     PixelCNN_forward m x2 = Ok (l2, m') /\
     forall k c, k < 256 -> c < c_in -> dat5 l1 b k c h w = dat5 l2 b k c h w) /\
  (forall p, PixelCNN_init c_in c_hidden p = Ok m -> reach m = 13).
Proof.
  intros Hwf Hch _ Hshape HC Hh Hw Hx.
  split; [| intros p; apply reach_init].
  assert (S1 : shape4 x1 = (tB x1, c_in, tH x1, tW x1)) by (unfold shape4; congruence).
  assert (S2 : shape4 x2 = (tB x1, c_in, tH x1, tW x1)) by congruence.
  destruct (PixelCNN_forward_eq c_in c_hidden m x1 _ _ _ Hwf S1) as [E1 _]; try lia.
  destruct (PixelCNN_forward_eq c_in c_hidden m x2 _ _ _ Hwf S2) as [E2 _]; try lia.
  apply shape4_inv in S2. destruct S2 as (B2 & C2 & H2 & W2).
  exists (logits_out m x1), (logits_out m x2), (masked_model m).
  split; [exact E1 |]. split; [exact E2 |].
  destruct Hwf as (Hi & Hhid & (pv & Hv) & (ph & Hhs) & Hl & (po & Ho)).
  set (W := tW x1) in *.
  set (R := fold_right (fun g n => gated_dilation g + n) 0 (conv_layers m)).
  assert (HR : reach m = 1 + R) by reflexivity.
  assert (Hin : agree b h W (fun y x => window h w W (0 + R + 1) y x /\ before h w W y x)
                  (tmap rescale x1) (tmap rescale x2)).
  { unfold agree. cbn [tmap tH tW tC dat]. repeat split; trivial; try lia.
    intros c y x Hc [(Hy & Hy' & Hx1 & Hx2 & HW) [Hb _]].
    rewrite Hx; trivial; lia. }
  pose proof (agree_vconv_center_window b h w W (0 + R) c_in c_hidden pv _ _ Hin HC) as Av.
  pose proof (agree_hconv_center_window b h w W (0 + R) c_in c_hidden ph _ _ Hin HC) as Ah.
  rewrite <- Hv in Av. rewrite <- Hhs in Ah.
  destruct (agree_layers_window b h w W c_hidden _ Hl 0 _ _ _ _ Av Ah) as [Aout Cout].
  { rewrite Hv. side. }
  { rewrite Hhs. side. }
  apply agree_tmap with (f := elu) in Aout.
  apply (agree_conv1x1 b h W _ c_hidden (c_in * 256) po) in Aout;
    [| apply region_ok_causal_window | exact Cout].
  intros k c Hk Hc.
  unfold logits_out. rewrite Ho.
  cbn [reshape_out dat5 tC conv2d_out Conv2d_1x1 out_channels].
  rewrite Nat.div_mul by lia.
  destruct Aout as (_ & _ & _ & _ & _ & Hdat).
  apply Hdat.
  - cbn [tC conv2d_out Conv2d_1x1 out_channels]. nia.
  - unfold causal_window, window. lia.
Qed.

(** ** The training, validation and test steps *)

(** X23. On a non-empty batch of valid images with at least one
    channel, row and column, the training, validation and test steps
    log, under train_bpd, val_bpd and test_bpd, the same value for the
    same images, whatever the labels and the batch index, also when they
    run one after the other on the model that the previous step left. *)
Theorem steps_log_same_value (L : Type) (c_in c_hidden : nat) (m : PixelCNN)
    (ms : metrics) (x : tensor4 Z) (l1 l2 l3 : L) (i1 i2 i3 : nat) (B H W : nat) :
  well_formed c_in c_hidden m -> 1 <= c_hidden ->
  shape4 x = (B, c_in, H, W) -> 1 <= B -> 1 <= c_in -> 1 <= H -> 1 <= W ->
  valid_image x ->
  exists loss m1,
    training_step L m ms (x, l1) i1 = Ok (loss, m1, ms ++ [("train_bpd"%string, loss)]) /\
    validation_step L m1 (ms ++ [("train_bpd"%string, loss)]) (x, l2) i2
    = Ok (m1, ms ++ [("train_bpd"%string, loss); ("val_bpd"%string, loss)]) /\
    test_step L m1 ms (x, l3) i3 = Ok (m1, ms ++ [("test_bpd"%string, loss)]).
Proof.
  intros Hwf Hch Hx _ _ HH HW Hv.
  pose proof (calc_likelihood_eq c_in c_hidden m x B H W Hwf Hch Hx HH HW Hv) as E.
  pose proof (masked_model_well_formed c_in c_hidden m Hwf) as Hwf1.
  pose proof (calc_likelihood_eq c_in c_hidden _ x B H W Hwf1 Hch Hx HH HW Hv) as E1.
  rewrite (logits_out_masked_model c_in c_hidden m x Hwf),
    (masked_model_idem c_in c_hidden m Hwf) in E1.
  exists (likelihood_spec (logits_out m x) x), (masked_model m).
  unfold training_step, validation_step, test_step, log. cbn [fst].
  rewrite E, E1. cbn [bind]. rewrite <- app_assoc. auto.
Qed.

(** ** Instances of the further properties *)

Lemma ex_hmask_rectangular : rectangular [[1; 1; 0]]%R.
Proof. repeat constructor. Qed.

Lemma masked_conv_output_size_witness :
  exists y mc',
    MaskedConvolution_forward ex_hconv ex_input = Ok (y, mc') /\
    shape4 y = (1, 1, 1, 1).
Proof.
  destruct (masked_conv_output_size 1 1 1 [[1; 1; 0]]%R ([[[[1; 1; 1]]]]%R, [0%R]) ex_input)
    as (y & mc' & E & _ & Hodd).
  - exact ex_hmask_rectangular.
  - simpl. lia.
  - simpl. lia.
  - lia.
  - lia.
  - lia.
  - reflexivity.
  - simpl. lia.
  - simpl. lia.
  - exists y, mc'. split; [exact E |].
    apply Hodd; [exists 0 | exists 1]; reflexivity.
Defined.

Lemma masked_weights_after_forward_witness :
  exists y mc',
    MaskedConvolution_forward ex_hconv ex_input = Ok (y, mc') /\
    get4 (weight (conv mc')) 0 0 0 2 = 0%R /\
    get4 (weight (conv mc')) 0 0 0 1 = 1%R.
Proof.
  eexists. eexists. split; [reflexivity |].
  match goal with
  | |- get4 (weight (conv ?mc)) _ _ _ _ = _ /\ _ =>
      pose proof (masked_weights_after_forward 1 1 1 [[1; 1; 0]]%R
                    ([[[[1; 1; 1]]]]%R, [0%R]) ex_input _ mc
                    ex_hmask_rectangular eq_refl) as Hw
  end.
  split.
  - apply (proj1 (proj2 (Hw 0 0 0 2))). reflexivity.
  - rewrite (proj2 (proj2 (Hw 0 0 0 1))); reflexivity.
Defined.

Lemma gated_block_preserves_shape_witness :
  exists v' h' g',
    GatedMaskedConv_forward (gated 1 2 (p_layers ex_params 0)) ex_feat ex_feat1
    = Ok (v', h', g') /\
    shape4 v' = (1, 1, 2, 2) /\ shape4 h' = (1, 1, 2, 2).
Proof.
  apply (gated_block_preserves_shape 1 2 (p_layers ex_params 0)
           (gated 1 2 (p_layers ex_params 0)) ex_feat ex_feat1 1 2 2).
  - apply GatedMaskedConv_init_eq.
  - lia.
  - reflexivity.
  - reflexivity.
  - lia.
  - lia.
  - lia.
Defined.

Lemma ex_gated_forward (h : tensor4 R) :
  shape4 h = (1, 1, 2, 2) ->
  GatedMaskedConv_forward (gated 1 1 (p_layers ex_params 0)) ex_feat h
  = Ok (gated_v (gated 1 1 (p_layers ex_params 0)) ex_feat,
        gated_h (gated 1 1 (p_layers ex_params 0)) ex_feat h,
        masked_gated (gated 1 1 (p_layers ex_params 0))).
Proof.
  intros Hh.
  apply (GatedMaskedConv_forward_eq 1 1 _ ex_feat h 1 2 2); trivial; lia.
Qed.

Lemma gated_vertical_ignores_horizontal_witness :
  exists v1 o1 g1 v2 o2 g2,
    GatedMaskedConv_forward (gated 1 1 (p_layers ex_params 0)) ex_feat ex_feat
    = Ok (v1, o1, g1) /\
    GatedMaskedConv_forward (gated 1 1 (p_layers ex_params 0)) ex_feat ex_feat1
    = Ok (v2, o2, g2) /\
    v1 = v2.
Proof.
  pose proof (ex_gated_forward ex_feat eq_refl) as E1.
  pose proof (ex_gated_forward ex_feat1 eq_refl) as E2.
  do 6 eexists. split; [exact E1 |]. split; [exact E2 |].
  exact (proj1 (gated_vertical_ignores_horizontal _ _ _ _ _ _ _ _ _ _ E1 E2)).
Defined.

Lemma gated_vertical_bounded_witness :
  exists v' h' g',
    GatedMaskedConv_forward (gated 1 1 (p_layers ex_params 0)) ex_feat ex_feat1
    = Ok (v', h', g') /\
    (-1 <= dat v' 0 0 0 0 <= 1)%R.
Proof.
  pose proof (ex_gated_forward ex_feat1 eq_refl) as E.
  do 3 eexists. split; [exact E |].
  exact (gated_vertical_bounded _ _ _ _ _ _ E 0 0 0 0).
Defined.

Lemma forward_logits_shape_witness :
  exists l m',
    PixelCNN_forward ex_model ex_img1 = Ok (l, m') /\
    shape5 l = (1, 256, 1, 2, 2) /\ well_formed 1 1 m'.
Proof.
  apply (forward_logits_shape 1 1 ex_model ex_img1 1 2 2).
  - apply model_well_formed.
  - lia.
  - lia.
  - reflexivity.
  - lia.
  - lia.
Defined.

Lemma forward_rejects_channel_mismatch_witness :
  PixelCNN_forward ex_model ex_img_two = Err ShapeError.
Proof.
  apply (forward_rejects_channel_mismatch 1 1).
  - apply model_well_formed.
  - discriminate.
Defined.

Lemma ex_imgs_differ_last (c y w : nat) :
  (y, w) <> (1, 1) -> dat ex_img1 0 c y w = dat ex_img2 0 c y w.
Proof.
  intros Hne. simpl.
  destruct ((y =? 1) && (w =? 1)) eqn:E; [| reflexivity].
  apply andb_true_iff in E. destruct E as [Ey Ew].
  apply Nat.eqb_eq in Ey, Ew. subst. contradiction.
Qed.

Lemma forward_batch_independent_witness :
  exists l1 l2 m',
    PixelCNN_forward ex_model ex_img1 = Ok (l1, m') /\
    PixelCNN_forward ex_model ex_img2 = Ok (l2, m') /\
    forall k c y w, k < 256 -> c < 1 -> y < 2 -> w < 2 ->
      dat5 l1 0 k c y w = dat5 l2 0 k c y w.
Proof.
  apply (forward_batch_independent 1 1 ex_model ex_img1 ex_img2 0 2 2).
  - apply model_well_formed.
  - lia.
  - lia.
  - reflexivity.
  - reflexivity.
  - lia.
  - lia.
  - intros c y w _ _ _ Hne. apply ex_imgs_differ_last. exact Hne.
Defined.

Lemma forward_repeatable_witness :
  exists l m1,
    PixelCNN_forward ex_model ex_img1 = Ok (l, m1) /\
    PixelCNN_forward m1 ex_img1 = Ok (l, m1).
Proof.
  apply (forward_repeatable 1 1 ex_model ex_img1 1 2 2).
  - apply model_well_formed.
  - lia.
  - lia.
  - reflexivity.
  - lia.
  - lia.
Defined.

Lemma nth_repeat_or {A : Type} (a d : A) (n o : nat) :
  nth o (repeat a n) d = a \/ nth o (repeat a n) d = d.
Proof.
  revert o. induction n as [| n IH]; intros [| o]; simpl; auto.
Qed.

Lemma get4_zero_params (co ci kH kW o i ky kx : nat) :
  get4 (fst (zero_params co ci kH kW)) o i ky kx = 0%R.
Proof.
  unfold get4, get2, zero_params, kernel. cbn [fst].
  destruct (nth_repeat_or (repeat (repeat (repeat 0%R kW) kH) ci) [] co o) as [E | E];
    rewrite E; [| destruct i, ky, kx; reflexivity].
  destruct (nth_repeat_or (repeat (repeat 0%R kW) kH) [] ci i) as [E1 | E1];
    rewrite E1; [| destruct ky, kx; reflexivity].
  destruct (nth_repeat_or (repeat 0%R kW) [] kH ky) as [E2 | E2];
    rewrite E2; [| destruct kx; reflexivity].
  destruct (nth_repeat_or 0%R 0%R kW kx) as [E3 | E3]; exact E3.
Qed.

Lemma uniform_logits_eight_bits_witness :
  calc_likelihood ex_model_zero_out ex_img1 = Ok (8%R, masked_model ex_model_zero_out).
Proof.
  apply (uniform_logits_eight_bits 1 1 ex_model_zero_out ex_img1 1 2 2).
  - apply model_well_formed.
  - lia.
  - reflexivity.
  - lia.
  - lia.
  - lia.
  - lia.
  - exact ex_img1_valid.
  - intros o i. apply (get4_zero_params 256 1 1 1).
  - intros o. destruct (nth_repeat_or 0%R 0%R 256 o) as [E | E]; exact E.
Defined.

Lemma likelihood_rejects_out_of_range_witness :
  (exists l m', PixelCNN_forward ex_model ex_img_bad = Ok (l, m')) /\
  calc_likelihood ex_model ex_img_bad = Err TargetOutOfBounds.
Proof.
  apply (likelihood_rejects_out_of_range 1 1 ex_model ex_img_bad 1 1 1 0 0 0 0).
  - apply model_well_formed.
  - lia.
  - reflexivity.
  - lia.
  - lia.
  - lia.
  - lia.
  - right. simpl. lia.
  - simpl. discriminate.
Defined.

Lemma sample_filled_seed_identity_witness :
  sample ex_multinomial ex_model (1, 1, 2, 2) 0 (Some ex_img1)
  = Ok (ex_model, 0, ex_img1).
Proof.
  apply (sample_filled_seed_identity nat ex_multinomial ex_model 1 1 2 2 0 ex_img1).
  - simpl. lia.
  - simpl. lia.
  - simpl. lia.
  - intros b c y x _ _ _ _. simpl. discriminate.
Defined.

Lemma sample_seed_too_small_witness :
  sample ex_multinomial ex_model (1, 1, 3, 2) 0 (Some ex_img1) = Err IndexError.
Proof.
  apply (sample_seed_too_small nat ex_multinomial ex_model 1 1 3 2 0 ex_img1 2 0 0).
  - intros b c y x _ _ _ _. simpl. discriminate.
  - lia.
  - lia.
  - lia.
  - simpl. lia.
Defined.

Lemma sample_rejects_channel_mismatch_witness :
  sample ex_multinomial ex_model (1, 3, 1, 1) 0 None = Err ShapeError.
Proof.
  apply (sample_rejects_channel_mismatch nat ex_multinomial 1 1 ex_model 1 3 1 1 0).
  - apply model_well_formed.
  - discriminate.
  - lia.
  - lia.
  - lia.
  - lia.
Defined.

Lemma sample_idempotent_witness :
  exists m' g' img',
    sample ex_multinomial ex_model (1, 1, 2, 2) 0 None = Ok (m', g', img') /\
    sample ex_multinomial m' (1, 1, 2, 2) g' (Some img') = Ok (m', g', img').
Proof.
  destruct (sample_spec nat ex_multinomial ex_multinomial_ok 1 1 (le_n 1)
              ex_model 1 2 2 0 None (model_well_formed 1 1 ex_params) eq_refl)
    as (m' & g' & img' & E & _).
  exists m', g', img'. split; [exact E |].
  apply (sample_idempotent nat ex_multinomial ex_multinomial_ok 1 1 ex_model 1 2 2 0 None).
  - apply model_well_formed.
  - lia.
  - reflexivity.
  - exact E.
Defined.

Lemma likelihood_of_sample_witness :
  exists m' g' img',
    sample ex_multinomial ex_model (1, 1, 2, 2) 0 None = Ok (m', g', img') /\
    valid_image img' /\
    exists v m'', calc_likelihood m' img' = Ok (v, m'') /\ (0 <= v)%R.
Proof.
  destruct (sample_spec nat ex_multinomial ex_multinomial_ok 1 1 (le_n 1)
              ex_model 1 2 2 0 None (model_well_formed 1 1 ex_params) eq_refl)
    as (m' & g' & img' & E & _).
  exists m', g', img'. split; [exact E |].
  apply (likelihood_of_sample nat ex_multinomial ex_multinomial_ok 1 1 ex_model 1 2 2 0 None
           m' g' img').
  - apply model_well_formed.
  - lia.
  - lia.
  - lia.
  - lia.
  - lia.
  - exact I.
  - exact E.
Defined.



Lemma receptive_field_witness :
  exists l1 l2 m',
    PixelCNN_forward ex_model ex_img1 = Ok (l1, m') /\
    PixelCNN_forward ex_model ex_img2 = Ok (l2, m') /\
    forall k c, k < 256 -> c < 1 -> dat5 l1 0 k c 1 0 = dat5 l2 0 k c 1 0.
Proof.
  apply (receptive_field 1 1 ex_model ex_img1 ex_img2 0 1 0).
  - apply model_well_formed.
  - lia.
  - lia.
  - reflexivity.
  - reflexivity.
  - simpl. lia.
  - simpl. lia.
  - intros c y x _ _ _ _ _ _ Hbefore. apply ex_imgs_differ_last.
    intros [= -> ->]. lia.
Defined.

Lemma steps_log_same_value_witness :
  exists loss m1,
    training_step unit ex_model [] (ex_img1, tt) 0
    = Ok (loss, m1, [("train_bpd"%string, loss)]) /\
    validation_step unit m1 [("train_bpd"%string, loss)] (ex_img1, tt) 0
    = Ok (m1, [("train_bpd"%string, loss); ("val_bpd"%string, loss)]) /\
    test_step unit m1 [] (ex_img1, tt) 0 = Ok (m1, [("test_bpd"%string, loss)]).
Proof.
  apply (steps_log_same_value unit 1 1 ex_model [] ex_img1 tt tt tt 0 0 0 1 2 2).
  - apply model_well_formed.
  - lia.
  - reflexivity.
  - lia.
  - lia.
  - lia.
  - lia.
  - exact ex_img1_valid.
Defined.
